(** * Alpha Clash TCG: turn, life and token managers

    A shallow embedding of the three state managers of the rules-support
    layer ([TurnManager.ts], [LifeManager.ts], [TokenManager.ts]) and of
    the type-level helpers they import ([getNextPhase], [TURN_PHASES],
    [TOKEN_DEFINITIONS]), together with the properties stated about them.

    Modelling conventions.
    - A JavaScript [number] that holds a turn number, a life total or a
      token count is an integer [Z]; fractional values, [NaN] and the loss
      of precision above 2^53 are outside the model.
    - A [Map<string, V>] is a [gmap string V]; a [new Map(m)] copy of a map
      of primitives is the same value.  Iteration order (insertion order in
      JavaScript) is abstracted to the order of [map_to_list].
    - The per-card token objects of the token manager are mutable objects
      handed around by reference, so they live in an explicit heap and the
      manager's map holds their locations.
    - A [throw] is a [Throw] result next to the state the manager is left
      in.
    - A registered callback is an opaque identifier; invoking it is
      recorded in a [delivered] trace.  A callback that throws is caught by
      the notifier, so a delivery never changes the manager; callbacks that
      call back into the manager are outside the model. *)

From stdpp Require Import gmap strings list fin_maps.

Open Scope string_scope.
Open Scope list_scope.
Open Scope Z_scope.

(** ** Results of calls that may throw *)

Inductive Error :=
  | NotFound (message : string)
  | InvalidArgument (message : string)
  | IllegalAction (message : string).

Inductive Result (A : Type) :=
  | Ok (a : A)
  | Throw (e : Error).
Arguments Ok {A} a.
Arguments Throw {A} e.

(** ** [Set<callback>]: insertion-ordered, without duplicates *)

Definition CallbackId := nat.

Definition set_add (cb : CallbackId) (s : list CallbackId) : list CallbackId :=
  if decide (cb ∈ s) then s else s ++ [cb].

Definition set_delete (cb : CallbackId) (s : list CallbackId) : list CallbackId :=
  filter (λ x, x ≠ cb) s.

(** ** Turn manager *)

Module Turn.

Inductive TurnPhase :=
  | start | untap | draw | resource | main | clash | main2 | end_.

#[global] Instance TurnPhase_eq_dec : EqDecision TurnPhase.
Proof. solve_decision. Defined.

Definition TURN_PHASES : list TurnPhase :=
  [start; untap; draw; resource; main; clash; main2; end_].

(** The string a phase is in the source. *)
Definition TurnPhase_name (p : TurnPhase) : string :=
  match p with
  | start => "start" | untap => "untap" | draw => "draw"
  | resource => "resource" | main => "main" | clash => "clash"
  | main2 => "main2" | end_ => "end"
  end.

(** [Array.prototype.indexOf]: [None] stands for the result [-1]. *)
Fixpoint indexOf (x : TurnPhase) (l : list TurnPhase) : option nat :=
  match l with
  | [] => None
  | y :: l' => if decide (y = x) then Some 0%nat else S <$> indexOf x l'
  end.

Definition getNextPhase (currentPhase : TurnPhase) : TurnPhase :=
  match indexOf currentPhase TURN_PHASES with
  | None => start
  | Some index =>
      if decide (index = (length TURN_PHASES - 1)%nat) then start
      else match TURN_PHASES !! (index + 1)%nat with
           | None => start
           | Some nextPhase => nextPhase
           end
  end.

Definition isValidPhaseTransition (from to : TurnPhase) : bool :=
  match indexOf from TURN_PHASES, indexOf to TURN_PHASES with
  | Some fromIndex, Some toIndex =>
      bool_decide (toIndex = (fromIndex + 1)%nat)
      || (bool_decide (from = end_) && bool_decide (to = start))
  | _, _ => false
  end.

Record PhaseActions := {
  canDraw : bool;
  canPlayResource : bool;
  canPlayCards : bool;
  canAttack : bool;
  canActivateAbilities : bool;
}.

(** [keyof PhaseActions] *)
Inductive ActionKey :=
  | KCanDraw | KCanPlayResource | KCanPlayCards | KCanAttack
  | KCanActivateAbilities.

Definition ActionKey_name (k : ActionKey) : string :=
  match k with
  | KCanDraw => "canDraw"
  | KCanPlayResource => "canPlayResource"
  | KCanPlayCards => "canPlayCards"
  | KCanAttack => "canAttack"
  | KCanActivateAbilities => "canActivateAbilities"
  end.

Definition getAction (a : PhaseActions) (k : ActionKey) : bool :=
  match k with
  | KCanDraw => canDraw a
  | KCanPlayResource => canPlayResource a
  | KCanPlayCards => canPlayCards a
  | KCanAttack => canAttack a
  | KCanActivateAbilities => canActivateAbilities a
  end.

Definition setAction (a : PhaseActions) (k : ActionKey) (b : bool) : PhaseActions :=
  match k with
  | KCanDraw =>
      {| canDraw := b; canPlayResource := canPlayResource a;
         canPlayCards := canPlayCards a; canAttack := canAttack a;
         canActivateAbilities := canActivateAbilities a |}
  | KCanPlayResource =>
      {| canDraw := canDraw a; canPlayResource := b;
         canPlayCards := canPlayCards a; canAttack := canAttack a;
         canActivateAbilities := canActivateAbilities a |}
  | KCanPlayCards =>
      {| canDraw := canDraw a; canPlayResource := canPlayResource a;
         canPlayCards := b; canAttack := canAttack a;
         canActivateAbilities := canActivateAbilities a |}
  | KCanAttack =>
      {| canDraw := canDraw a; canPlayResource := canPlayResource a;
         canPlayCards := canPlayCards a; canAttack := b;
         canActivateAbilities := canActivateAbilities a |}
  | KCanActivateAbilities =>
      {| canDraw := canDraw a; canPlayResource := canPlayResource a;
         canPlayCards := canPlayCards a; canAttack := canAttack a;
         canActivateAbilities := b |}
  end.

Record TurnState := {
  turnNumber : Z;
  phase : TurnPhase;
  activePlayerId : string;
  phaseActionsRemaining : PhaseActions;
}.

Record TurnChangeEvent := {
  previousTurn : Z;
  newTurn : Z;
  tc_activePlayerId : string;
}.

Record PhaseChangeEvent := {
  previousPhase : TurnPhase;
  newPhase : TurnPhase;
  pc_turnNumber : Z;
}.

Record TurnManagerConfig := {
  skipFirstDraw : bool;
  resourcesPerTurn : Z;
  drawsPerTurn : Z;
}.

Definition DEFAULT_CONFIG : TurnManagerConfig :=
  {| skipFirstDraw := true; resourcesPerTurn := 1; drawsPerTurn := 1 |}.

Definition mkActions (d r p a ab : bool) : PhaseActions :=
  {| canDraw := d; canPlayResource := r; canPlayCards := p;
     canAttack := a; canActivateAbilities := ab |}.

Definition DEFAULT_PHASE_ACTIONS (p : TurnPhase) : PhaseActions :=
  match p with
  | start    => mkActions false false false false false
  | untap    => mkActions false false false false false
  | draw     => mkActions true  false false false false
  | resource => mkActions false true  false false false
  | main     => mkActions false false true  false true
  | clash    => mkActions false false false true  true
  | main2    => mkActions false false true  false true
  | end_     => mkActions false false false false false
  end.

(** One invocation of a registered callback with an event. *)
Inductive Delivery :=
  | TurnDelivered (cb : CallbackId) (e : TurnChangeEvent)
  | PhaseDelivered (cb : CallbackId) (e : PhaseChangeEvent).

Record TurnManager := {
  state : TurnState;
  playerIds : string * string;
  config : TurnManagerConfig;
  turnListeners : list CallbackId;
  phaseListeners : list CallbackId;
  delivered : list Delivery;
}.

Definition with_state (m : TurnManager) (s : TurnState) : TurnManager :=
  {| state := s; playerIds := playerIds m; config := config m;
     turnListeners := turnListeners m; phaseListeners := phaseListeners m;
     delivered := delivered m |}.

Definition with_listeners (m : TurnManager) (tl pl : list CallbackId) : TurnManager :=
  {| state := state m; playerIds := playerIds m; config := config m;
     turnListeners := tl; phaseListeners := pl; delivered := delivered m |}.

Definition constructor (player1Id player2Id : string) (cfg : TurnManagerConfig)
  : TurnManager :=
  {| state := {| turnNumber := 1; phase := start; activePlayerId := player1Id;
                 phaseActionsRemaining := DEFAULT_PHASE_ACTIONS start |};
     playerIds := (player1Id, player2Id);
     config := cfg;
     turnListeners := [];
     phaseListeners := [];
     delivered := [] |}.

Definition getTurnNumber (m : TurnManager) : Z := turnNumber (state m).
Definition getCurrentPhase (m : TurnManager) : TurnPhase := phase (state m).
Definition getActivePlayerId (m : TurnManager) : string := activePlayerId (state m).

Definition getInactivePlayerId (m : TurnManager) : string :=
  if decide ((playerIds m).1 = activePlayerId (state m))
  then (playerIds m).2 else (playerIds m).1.

Definition isPlayerTurn (m : TurnManager) (playerId : string) : bool :=
  bool_decide (activePlayerId (state m) = playerId).

Definition getPhaseActions (m : TurnManager) : PhaseActions :=
  phaseActionsRemaining (state m).

Definition canPerformAction (m : TurnManager) (action : ActionKey) : bool :=
  getAction (phaseActionsRemaining (state m)) action.

Definition notifyTurnListeners (m : TurnManager) (event : TurnChangeEvent)
  : TurnManager :=
  {| state := state m; playerIds := playerIds m; config := config m;
     turnListeners := turnListeners m; phaseListeners := phaseListeners m;
     delivered := delivered m
                  ++ map (λ cb, TurnDelivered cb event) (turnListeners m) |}.

Definition notifyPhaseListeners (m : TurnManager) (event : PhaseChangeEvent)
  : TurnManager :=
  {| state := state m; playerIds := playerIds m; config := config m;
     turnListeners := turnListeners m; phaseListeners := phaseListeners m;
     delivered := delivered m
                  ++ map (λ cb, PhaseDelivered cb event) (phaseListeners m) |}.

Definition endTurn (m : TurnManager) : TurnManager * TurnChangeEvent :=
  let previousTurn := turnNumber (state m) in
  let active :=
    if decide (activePlayerId (state m) = (playerIds m).1)
    then (playerIds m).2 else (playerIds m).1 in
  let s := {| turnNumber := turnNumber (state m) + 1;
              phase := start;
              activePlayerId := active;
              phaseActionsRemaining := DEFAULT_PHASE_ACTIONS start |} in
  let event := {| previousTurn := previousTurn;
                  newTurn := turnNumber s;
                  tc_activePlayerId := activePlayerId s |} in
  (notifyTurnListeners (with_state m s) event, event).

Definition nextPhase (m : TurnManager) : TurnManager * PhaseChangeEvent :=
  let previousPhase := phase (state m) in
  let newPhase := getNextPhase previousPhase in
  if bool_decide (previousPhase = end_) && bool_decide (newPhase = start) then
    let m' := (endTurn m).1 in
    (m', {| previousPhase := previousPhase;
            newPhase := phase (state m');
            pc_turnNumber := turnNumber (state m') |})
  else
    let actions := DEFAULT_PHASE_ACTIONS newPhase in
    let actions :=
      if bool_decide (newPhase = draw)
         && bool_decide (turnNumber (state m) = 1)
         && skipFirstDraw (config m)
      then setAction actions KCanDraw false
      else actions in
    let s := {| turnNumber := turnNumber (state m);
                phase := newPhase;
                activePlayerId := activePlayerId (state m);
                phaseActionsRemaining := actions |} in
    let event := {| previousPhase := previousPhase;
                    newPhase := newPhase;
                    pc_turnNumber := turnNumber s |} in
    (notifyPhaseListeners (with_state m s) event, event).

(** [setPhase] takes a [TurnPhase]; every value of that type is a member of
    [TURN_PHASES], which the check below re-establishes at run time. *)
Definition setPhase (p : TurnPhase) (m : TurnManager) : TurnManager * Result unit :=
  if negb (bool_decide (p ∈ TURN_PHASES)) then
    (m, Throw (InvalidArgument ("Invalid phase: " +:+ TurnPhase_name p)))
  else
    let previousPhase := phase (state m) in
    let s := {| turnNumber := turnNumber (state m);
                phase := p;
                activePlayerId := activePlayerId (state m);
                phaseActionsRemaining := DEFAULT_PHASE_ACTIONS p |} in
    let event := {| previousPhase := previousPhase;
                    newPhase := p;
                    pc_turnNumber := turnNumber s |} in
    (notifyPhaseListeners (with_state m s) event, Ok tt).

Definition useAction (action : ActionKey) (m : TurnManager)
  : TurnManager * Result unit :=
  if negb (getAction (phaseActionsRemaining (state m)) action) then
    (m, Throw (IllegalAction
                 ("Action " +:+ ActionKey_name action
                  +:+ " is not available in phase "
                  +:+ TurnPhase_name (phase (state m)))))
  else
    (with_state m
       {| turnNumber := turnNumber (state m);
          phase := phase (state m);
          activePlayerId := activePlayerId (state m);
          phaseActionsRemaining :=
            setAction (phaseActionsRemaining (state m)) action false |},
     Ok tt).

Definition getAllPhases (m : TurnManager) : list TurnPhase := TURN_PHASES.

(** [getState] builds a new record with a new [phaseActionsRemaining]
    record; both hold primitives only, so the copy is the value. *)
Definition getState (m : TurnManager) : TurnState :=
  {| turnNumber := turnNumber (state m);
     phase := phase (state m);
     activePlayerId := activePlayerId (state m);
     phaseActionsRemaining := phaseActionsRemaining (state m) |}.

Definition addTurnListener (cb : CallbackId) (m : TurnManager) : TurnManager :=
  with_listeners m (set_add cb (turnListeners m)) (phaseListeners m).

Definition removeTurnListener (cb : CallbackId) (m : TurnManager) : TurnManager :=
  with_listeners m (set_delete cb (turnListeners m)) (phaseListeners m).

Definition addPhaseListener (cb : CallbackId) (m : TurnManager) : TurnManager :=
  with_listeners m (turnListeners m) (set_add cb (phaseListeners m)).

Definition removePhaseListener (cb : CallbackId) (m : TurnManager) : TurnManager :=
  with_listeners m (turnListeners m) (set_delete cb (phaseListeners m)).

Definition clearListeners (m : TurnManager) : TurnManager :=
  with_listeners m [] [].

Definition serialize (m : TurnManager) : TurnState := getState m.

Definition restore (s : TurnState) (m : TurnManager) : TurnManager :=
  with_state m
    {| turnNumber := turnNumber s;
       phase := phase s;
       activePlayerId := activePlayerId s;
       phaseActionsRemaining := phaseActionsRemaining s |}.

(** [n] successive calls of [nextPhase], with the manager seen before each
    call and after the last one. *)
Fixpoint nextPhases (n : nat) (m : TurnManager) : list TurnManager :=
  match n with
  | O => [m]
  | S n' => m :: nextPhases n' (nextPhase m).1
  end.

#[global] Instance ActionKey_eq_dec : EqDecision ActionKey.
Proof. solve_decision. Defined.

(** [n] successive calls of [nextPhase], keeping the manager only. *)
Definition advance (n : nat) (m : TurnManager) : TurnManager :=
  Nat.iter n (λ m, (nextPhase m).1) m.

(** The public operations of the turn manager that change it, as a
    command language.  A call that throws is caught by the caller and the
    sequence goes on. *)
Inductive Op :=
  | OpNextPhase
  | OpSetPhase (p : TurnPhase)
  | OpEndTurn
  | OpUseAction (action : ActionKey)
  | OpAddTurnListener (cb : CallbackId)
  | OpRemoveTurnListener (cb : CallbackId)
  | OpAddPhaseListener (cb : CallbackId)
  | OpRemovePhaseListener (cb : CallbackId)
  | OpClearListeners.

Definition step (m : TurnManager) (op : Op) : TurnManager :=
  match op with
  | OpNextPhase => (nextPhase m).1
  | OpSetPhase p => (setPhase p m).1
  | OpEndTurn => (endTurn m).1
  | OpUseAction action => (useAction action m).1
  | OpAddTurnListener cb => addTurnListener cb m
  | OpRemoveTurnListener cb => removeTurnListener cb m
  | OpAddPhaseListener cb => addPhaseListener cb m
  | OpRemovePhaseListener cb => removePhaseListener cb m
  | OpClearListeners => clearListeners m
  end.

Definition run (ops : list Op) (m : TurnManager) : TurnManager := foldl step m ops.

(** Every action flag that is still set is one the current phase grants. *)
Definition flagsWithinDefaults (m : TurnManager) : Prop :=
  ∀ action, canPerformAction m action = true →
            getAction (DEFAULT_PHASE_ACTIONS (phase (state m))) action = true.


(** The callbacks a phase-change event was handed to, in order, and the
    callbacks a turn-change event was handed to. *)
Definition phaseDeliveredTo (d : list Delivery) : list CallbackId :=
  omap (λ x, match x with PhaseDelivered cb _ => Some cb | _ => None end) d.

Definition turnDeliveredTo (d : list Delivery) : list CallbackId :=
  omap (λ x, match x with TurnDelivered cb _ => Some cb | _ => None end) d.

End Turn.

(** ** Life manager *)

Module Life.

Record LifeChangeEvent := {
  playerId : string;
  previousLife : Z;
  newLife : Z;
  change : Z;
  source : option string;
}.

Record LifeManagerConfig := {
  startingLife : Z;
  minLife : Z;
  maxLife : option Z;
}.

Definition DEFAULT_CONFIG : LifeManagerConfig :=
  {| startingLife := 20; minLife := 0; maxLife := None |}.

Record LifeManager := {
  lifeTotals : gmap string Z;
  config : LifeManagerConfig;
  listeners : list CallbackId;
  delivered : list (CallbackId * LifeChangeEvent);
}.

Definition constructor (cfg : LifeManagerConfig) : LifeManager :=
  {| lifeTotals := ∅; config := cfg; listeners := []; delivered := [] |}.

(** Methods run on the manager and either return or throw. *)
Definition M (A : Type) : Type := LifeManager → LifeManager * Result A.

Definition ret {A} (a : A) : M A := λ m, (m, Ok a).

Definition throw {A} (e : Error) : M A := λ m, (m, Throw e).

Definition bind {A B} (c : M A) (k : A → M B) : M B :=
  λ m, match c m with
       | (m', Ok a) => k a m'
       | (m', Throw e) => (m', Throw e)
       end.

Notation "'let!' x ':=' c 'in' k" := (bind c (λ x, k))
  (at level 10, x name, c at level 100, k at level 200).
Notation "c1 ';;;' c2" := (bind c1 (λ _, c2))
  (at level 100, c2 at level 200, right associativity).

Definition read {A} (f : LifeManager → A) : M A := λ m, (m, Ok (f m)).

Definition write (f : LifeManager → LifeManager) : M unit := λ m, (f m, Ok tt).

Ltac run_monad :=
  unfold bind, ret, throw, read, write; cbn [fst snd].

Definition set_lifeTotals (t : gmap string Z) (m : LifeManager) : LifeManager :=
  {| lifeTotals := t; config := config m; listeners := listeners m;
     delivered := delivered m |}.

Definition set_listeners (l : list CallbackId) (m : LifeManager) : LifeManager :=
  {| lifeTotals := lifeTotals m; config := config m; listeners := l;
     delivered := delivered m |}.

Definition initializePlayer (playerId : string) (startingLife' : option Z) : M unit :=
  let! cfg := read config in
  let life := default (startingLife cfg) startingLife' in
  write (λ m, set_lifeTotals (<[playerId := life]> (lifeTotals m)) m).

Definition getLife (playerId : string) : M Z :=
  let! life := read (λ m, lifeTotals m !! playerId) in
  match life with
  | None => throw (NotFound ("Player " +:+ playerId +:+ " not found"))
  | Some life => ret life
  end.

Definition hasPlayer (playerId : string) (m : LifeManager) : bool :=
  bool_decide (is_Some (lifeTotals m !! playerId)).

Definition clampLife (cfg : LifeManagerConfig) (life : Z) : Z :=
  let clamped := Z.max life (minLife cfg) in
  match maxLife cfg with
  | Some maxLife => Z.min clamped maxLife
  | None => clamped
  end.

Definition notifyListeners (event : LifeChangeEvent) : M unit :=
  write (λ m,
    {| lifeTotals := lifeTotals m; config := config m; listeners := listeners m;
       delivered := delivered m ++ map (λ cb, (cb, event)) (listeners m) |}).

Definition setLife (playerId : string) (life : Z) (source : option string)
  : M LifeChangeEvent :=
  let! previousLife := getLife playerId in
  let! cfg := read config in
  let clampedLife := clampLife cfg life in
  write (λ m, set_lifeTotals (<[playerId := clampedLife]> (lifeTotals m)) m) ;;;
  let event := {| playerId := playerId;
                  previousLife := previousLife;
                  newLife := clampedLife;
                  change := clampedLife - previousLife;
                  source := source |} in
  notifyListeners event ;;;
  ret event.

Definition changeLife (playerId : string) (amount : Z) (source : option string)
  : M LifeChangeEvent :=
  let! currentLife := getLife playerId in
  setLife playerId (currentLife + amount) source.

Definition dealDamage (playerId : string) (amount : Z) (source : option string)
  : M LifeChangeEvent :=
  if bool_decide (amount < 0) then
    throw (InvalidArgument "Damage amount must be non-negative")
  else changeLife playerId (- amount) source.

Definition heal (playerId : string) (amount : Z) (source : option string)
  : M LifeChangeEvent :=
  if bool_decide (amount < 0) then
    throw (InvalidArgument "Heal amount must be non-negative")
  else changeLife playerId amount source.

Definition isAlive (playerId : string) : M bool :=
  let! life := getLife playerId in
  let! cfg := read config in
  ret (bool_decide (life > minLife cfg)).

Definition isDead (playerId : string) : M bool :=
  let! alive := isAlive playerId in
  ret (negb alive).

Definition resetLife (playerId : string) : M unit :=
  let! cfg := read config in
  setLife playerId (startingLife cfg) (Some "reset") ;;;
  ret tt.

Definition getPlayerIds (m : LifeManager) : list string :=
  (map_to_list (lifeTotals m)).*1.

Fixpoint forEach (ids : list string) (body : string → M unit) : M unit :=
  match ids with
  | [] => ret tt
  | playerId :: ids' => body playerId ;;; forEach ids' body
  end.

(** The loop runs over the keys of the map while [resetLife] overwrites
    the values of keys that are already there, so the keys are those at
    entry. *)
Definition resetAllLife : M unit :=
  let! ids := read getPlayerIds in
  forEach ids resetLife.

Definition getAllLifeTotals (m : LifeManager) : gmap string Z := lifeTotals m.

Definition addListener (cb : CallbackId) : M unit :=
  write (λ m, set_listeners (set_add cb (listeners m)) m).

Definition removeListener (cb : CallbackId) : M unit :=
  write (λ m, set_listeners (set_delete cb (listeners m)) m).

Definition clearListeners : M unit :=
  write (set_listeners []).

Definition serialize (m : LifeManager) : gmap string Z := lifeTotals m.

Definition restore (st : gmap string Z) : M unit :=
  write (set_lifeTotals st).

Definition getStartingLife (m : LifeManager) : Z := startingLife (config m).

(** The public operations that change life totals, as a command language,
    for statements about every sequence of calls.  A call that throws is
    caught by the caller and the sequence goes on. *)
Inductive Op :=
  | OpInitializePlayer (playerId : string) (startingLife' : option Z)
  | OpSetLife (playerId : string) (life : Z) (source : option string)
  | OpChangeLife (playerId : string) (amount : Z) (source : option string)
  | OpDealDamage (playerId : string) (amount : Z) (source : option string)
  | OpHeal (playerId : string) (amount : Z) (source : option string)
  | OpResetLife (playerId : string)
  | OpResetAllLife.

Definition perform (op : Op) : M unit :=
  match op with
  | OpInitializePlayer p l => initializePlayer p l
  | OpSetLife p l s => setLife p l s ;;; ret tt
  | OpChangeLife p a s => changeLife p a s ;;; ret tt
  | OpDealDamage p a s => dealDamage p a s ;;; ret tt
  | OpHeal p a s => heal p a s ;;; ret tt
  | OpResetLife p => resetLife p
  | OpResetAllLife => resetAllLife
  end.

Definition step (m : LifeManager) (op : Op) : LifeManager := (perform op m).1.

Definition run (ops : list Op) (m : LifeManager) : LifeManager := foldl step m ops.

(** [life] lies in the configured range; the range has no upper end when
    [maxLife] is [null]. *)
Definition inRange (cfg : LifeManagerConfig) (life : Z) : Prop :=
  minLife cfg ≤ life ∧ ∀ hi, maxLife cfg = Some hi → life ≤ hi.

(** The manager is configured with [cfg] and every stored life total lies
    in its range. *)
Definition lifeInv (cfg : LifeManagerConfig) (m : LifeManager) : Prop :=
  config m = cfg
  ∧ ∀ playerId life, lifeTotals m !! playerId = Some life → inRange cfg life.

(** The life an [initializePlayer] call stores. *)
Definition initialLife (cfg : LifeManagerConfig) (op : Op) : option Z :=
  match op with
  | OpInitializePlayer _ l => Some (default (startingLife cfg) l)
  | _ => None
  end.

(** [Number.MAX_SAFE_INTEGER] and [Number.isSafeInteger]: a JavaScript
    number holds every integer up to this magnitude, and a sum or
    difference of two such integers that is again one of them is computed
    without rounding.  Beyond it [currentLife + amount] in [changeLife]
    rounds, which the integers of this model do not. *)
Definition MAX_SAFE_INTEGER : Z := 2 ^ 53 - 1.

Definition isSafeInteger (n : Z) : Prop :=
  - MAX_SAFE_INTEGER ≤ n ≤ MAX_SAFE_INTEGER.

End Life.

(** ** Token manager *)

Module Token.

Inductive TokenId :=
  | damage_counter | boost_counter | shield_counter | status_stun
  | status_freeze.

#[global] Instance TokenId_eq_dec : EqDecision TokenId.
Proof. solve_decision. Defined.

Definition TokenId_to_nat (t : TokenId) : nat :=
  match t with
  | damage_counter => 0 | boost_counter => 1 | shield_counter => 2
  | status_stun => 3 | status_freeze => 4
  end%nat.

Definition TokenId_of_nat (n : nat) : option TokenId :=
  match n with
  | 0 => Some damage_counter | 1 => Some boost_counter
  | 2 => Some shield_counter | 3 => Some status_stun
  | 4 => Some status_freeze | _ => None
  end%nat.

#[global] Program Instance TokenId_countable : Countable TokenId :=
  inj_countable TokenId_to_nat TokenId_of_nat _.
Next Obligation. by intros []. Qed.

Record TokenDefinition := {
  id : TokenId;
  name : string;
  image : string;
  color : string;
  stackable : bool;
  value : Z;
}.

Definition TOKEN_DEFINITIONS (t : TokenId) : TokenDefinition :=
  match t with
  | damage_counter =>
      {| id := damage_counter; name := "Damage Counter";
         image := "images/tokens/damage.png"; color := "#FF4444";
         stackable := true; value := 1 |}
  | boost_counter =>
      {| id := boost_counter; name := "Boost Counter";
         image := "images/tokens/boost.png"; color := "#44FF44";
         stackable := true; value := 1 |}
  | shield_counter =>
      {| id := shield_counter; name := "Shield Counter";
         image := "images/tokens/shield.png"; color := "#4444FF";
         stackable := true; value := 1 |}
  | status_stun =>
      {| id := status_stun; name := "Stun Token";
         image := "images/tokens/stun.png"; color := "#FFFF00";
         stackable := false; value := 1 |}
  | status_freeze =>
      {| id := status_freeze; name := "Freeze Token";
         image := "images/tokens/freeze.png"; color := "#00FFFF";
         stackable := false; value := 1 |}
  end.

(** [TokenState]: the object [{ [tokenId]: count }] kept per card.  The
    methods take a [TokenId]; [isValidTokenId] holds of each of its five
    values, so the [throw] that guards untyped callers is never taken. *)
Abbreviation TokenState := (gmap TokenId Z).

(** *** The heap of token objects *)

Definition loc := nat.

Record Heap := {
  cells : gmap loc TokenState;
  next : loc;
}.

Definition emptyHeap : Heap := {| cells := ∅; next := 0%nat |}.

(** The object at [l]. *)
Definition deref (h : Heap) (l : loc) : TokenState := default ∅ (cells h !! l).

(** A new object, at a location never handed out before. *)
Definition alloc (o : TokenState) (h : Heap) : loc * Heap :=
  (next h, {| cells := <[next h := o]> (cells h); next := S (next h) |}).

(** In-place update of the object at [l]. *)
Definition store (l : loc) (o : TokenState) (h : Heap) : Heap :=
  {| cells := <[l := o]> (cells h); next := next h |}.

Record TokenManagerConfig := {
  stackLimit : Z;
}.

Definition DEFAULT_CONFIG : TokenManagerConfig := {| stackLimit := 99 |}.

Record TokenManager := {
  tokens : gmap string loc;
  config : TokenManagerConfig;
}.

Definition set_tokens (t : gmap string loc) (m : TokenManager) : TokenManager :=
  {| tokens := t; config := config m |}.

Definition constructor (cfg : TokenManagerConfig) : TokenManager :=
  {| tokens := ∅; config := cfg |}.

(** [definition.stackable ? this.config.stackLimit : 1] *)
Definition maxCount (m : TokenManager) (tokenId : TokenId) : Z :=
  if stackable (TOKEN_DEFINITIONS tokenId) then stackLimit (config m) else 1.

Definition addToken (cardId : string) (tokenId : TokenId) (count : Z)
    (m : TokenManager) (h : Heap) : Z * TokenManager * Heap :=
  let '(l, m, h) :=
    match tokens m !! cardId with
    | Some l => (l, m, h)
    | None =>
        let '(l, h) := alloc ∅ h in
        (l, set_tokens (<[cardId := l]> (tokens m)) m, h)
    end in
  let cardTokens := deref h l in
  let currentCount := default 0 (cardTokens !! tokenId) in
  let newCount := Z.min (currentCount + count) (maxCount m tokenId) in
  (newCount, m, store l (<[tokenId := newCount]> cardTokens) h).

Definition removeToken (cardId : string) (tokenId : TokenId) (count : Z)
    (m : TokenManager) (h : Heap) : Z * TokenManager * Heap :=
  match tokens m !! cardId with
  | None => (0, m, h)
  | Some l =>
      let cardTokens := deref h l in
      let currentCount := default 0 (cardTokens !! tokenId) in
      let newCount := Z.max (currentCount - count) 0 in
      let cardTokens :=
        if decide (newCount = 0) then delete tokenId cardTokens
        else <[tokenId := newCount]> cardTokens in
      let h := store l cardTokens h in
      let m :=
        if decide (size cardTokens = 0%nat)
        then set_tokens (delete cardId (tokens m)) m else m in
      (newCount, m, h)
  end.

Definition getTokenCount (cardId : string) (tokenId : TokenId)
    (m : TokenManager) (h : Heap) : Z :=
  match tokens m !! cardId with
  | None => 0
  | Some l => default 0 (deref h l !! tokenId)
  end.

Definition setTokenCount (cardId : string) (tokenId : TokenId) (count : Z)
    (m : TokenManager) (h : Heap) : TokenManager * Heap :=
  let clampedCount := Z.min (Z.max count 0) (maxCount m tokenId) in
  if decide (clampedCount = 0) then
    let '(_, m, h) :=
      removeToken cardId tokenId (getTokenCount cardId tokenId m h) m h in
    (m, h)
  else
    let '(l, m, h) :=
      match tokens m !! cardId with
      | Some l => (l, m, h)
      | None =>
          let '(l, h) := alloc ∅ h in
          (l, set_tokens (<[cardId := l]> (tokens m)) m, h)
      end in
    (m, store l (<[tokenId := clampedCount]> (deref h l)) h).

(** [{ ...(this.tokens.get(cardId) ?? {}) }]: a new object with the same
    entries, returned by value. *)
Definition getTokensOnCard (cardId : string) (m : TokenManager) (h : Heap)
  : TokenState :=
  match tokens m !! cardId with
  | None => ∅
  | Some l => deref h l
  end.

Definition hasTokens (cardId : string) (m : TokenManager) (h : Heap) : bool :=
  match tokens m !! cardId with
  | None => false
  | Some l => bool_decide (0 < size (deref h l))%nat
  end.

Definition hasToken (cardId : string) (tokenId : TokenId)
    (m : TokenManager) (h : Heap) : bool :=
  bool_decide (getTokenCount cardId tokenId m h > 0).

Definition clearTokens (cardId : string) (m : TokenManager) : TokenManager :=
  set_tokens (delete cardId (tokens m)) m.

Definition clearAllTokens (m : TokenManager) : TokenManager :=
  set_tokens ∅ m.

Definition getTokenDefinition (tokenId : TokenId) : TokenDefinition :=
  TOKEN_DEFINITIONS tokenId.

Definition getAllTokenDefinitions : list TokenDefinition :=
  TOKEN_DEFINITIONS <$>
    [damage_counter; boost_counter; shield_counter; status_stun; status_freeze].

Definition getCardsWithTokens (m : TokenManager) : list string :=
  (map_to_list (tokens m)).*1.

(** [new Map(this.tokens)]: a new outer map whose values are the same
    token objects. *)
Definition serialize (m : TokenManager) : gmap string loc := tokens m.

(** [this.tokens = new Map(state)] *)
Definition restore (st : gmap string loc) (m : TokenManager) : TokenManager :=
  set_tokens st m.

Definition getTotalTokenCount (m : TokenManager) (h : Heap) : Z :=
  map_fold (λ _ l total,
              map_fold (λ _ count total, total + count) total (deref h l))
           0 (tokens m).

(** What a caller holding a serialized map [st] sees and does:
    [st.get(cardId)?.[tokenId]] and [st.get(cardId)[tokenId] = count]. *)
Definition snapshotCount (st : gmap string loc) (cardId : string)
    (tokenId : TokenId) (h : Heap) : option Z :=
  l ← st !! cardId; deref h l !! tokenId.

Definition snapshotWrite (st : gmap string loc) (cardId : string)
    (tokenId : TokenId) (count : Z) (h : Heap) : Heap :=
  match st !! cardId with
  | None => h
  | Some l => store l (<[tokenId := count]> (deref h l)) h
  end.

(** The public mutating operations as a command language. *)
Inductive Op :=
  | OpAddToken (cardId : string) (tokenId : TokenId) (count : Z)
  | OpRemoveToken (cardId : string) (tokenId : TokenId) (count : Z)
  | OpSetTokenCount (cardId : string) (tokenId : TokenId) (count : Z)
  | OpClearTokens (cardId : string)
  | OpClearAllTokens.

Definition step (s : TokenManager * Heap) (op : Op) : TokenManager * Heap :=
  let '(m, h) := s in
  match op with
  | OpAddToken c t n => let '(_, m, h) := addToken c t n m h in (m, h)
  | OpRemoveToken c t n => let '(_, m, h) := removeToken c t n m h in (m, h)
  | OpSetTokenCount c t n => setTokenCount c t n m h
  | OpClearTokens c => (clearTokens c m, h)
  | OpClearAllTokens => (clearAllTokens m, h)
  end.

Definition run (ops : list Op) (s : TokenManager * Heap) : TokenManager * Heap :=
  foldl step s ops.

(** A card in the outer map carries a kind with a positive count. *)
Definition cardHasPositive (cardId : string) (m : TokenManager) (h : Heap) : Prop :=
  ∃ tokenId, 0 < getTokenCount cardId tokenId m h.

(** A token object without zero or negative entries, and with an entry. *)
Definition positiveObject (o : TokenState) : Prop :=
  o ≠ ∅ ∧ ∀ tokenId count, o !! tokenId = Some count → 0 < count.

(** The state the manager keeps when counts added are positive: the stack
    limit is at least 1, the token objects of the cards were allocated, no
    two cards share one, and each is a [positiveObject]. *)
Definition tokenInv (m : TokenManager) (h : Heap) : Prop :=
  1 ≤ stackLimit (config m)
  ∧ (∀ cardId l, tokens m !! cardId = Some l → (l < next h)%nat)
  ∧ (∀ cardId cardId' l,
       tokens m !! cardId = Some l → tokens m !! cardId' = Some l →
       cardId = cardId')
  ∧ (∀ cardId l, tokens m !! cardId = Some l → positiveObject (deref h l)).

(** An operation that is not an [addToken] of a count below 1. *)
Definition positiveAdd (op : Op) : Prop :=
  match op with
  | OpAddToken _ _ count => 1 ≤ count
  | _ => True
  end.

(** Token objects of the cards were allocated and no two cards share one:
    the state of a manager that got its objects from its own methods. *)
Definition separated (m : TokenManager) (h : Heap) : Prop :=
  (∀ cardId l, tokens m !! cardId = Some l → (l < next h)%nat)
  ∧ (∀ cardId cardId' l,
       tokens m !! cardId = Some l → tokens m !! cardId' = Some l →
       cardId = cardId').

(** A token object whose counts are within the capacities. *)
Definition capped (m : TokenManager) (o : TokenState) : Prop :=
  ∀ tokenId count, o !! tokenId = Some count → count ≤ maxCount m tokenId.

(** No stored count is above the capacity of its kind. *)
Definition withinCapacity (m : TokenManager) (h : Heap) : Prop :=
  ∀ cardId tokenId count,
    getTokensOnCard cardId m h !! tokenId = Some count →
    count ≤ maxCount m tokenId.

(** An operation that is not a [removeToken] of a negative count. *)
Definition nonNegativeRemove (op : Op) : Prop :=
  match op with
  | OpRemoveToken _ _ count => 0 ≤ count
  | _ => True
  end.



(** The card an operation is about, if it is about one card. *)
Definition opCard (op : Op) : option string :=
  match op with
  | OpAddToken c _ _ | OpRemoveToken c _ _ | OpSetTokenCount c _ _
  | OpClearTokens c => Some c
  | OpClearAllTokens => None
  end.

End Token.

(** ** Helper functions *)

Module Helpers.

Definition clamp (value min max : Z) : Z := Z.min (Z.max value min) max.

Section Arrays.
Context {A : Type} `{EqDecision A}.

(** The body of the loop of [shuffle]: the elements at [i] and [j] change
    places when both indices are in the array.  Arrays that hold the value
    [undefined] are outside the model. *)
Definition swapItems (result : list A) (i j : nat) : list A :=
  match result !! i, result !! j with
  | Some temp, Some swapItem => <[j := temp]> (<[i := swapItem]> result)
  | _, _ => result
  end.

(** The loop of [shuffle] from index [i] down to 1; [random i] is the
    index [Math.floor(Math.random() * (i + 1))] drawn at index [i]. *)
Fixpoint shuffleFrom (i : nat) (random : nat → nat) (result : list A) : list A :=
  match i with
  | O => result
  | S i' => shuffleFrom i' random (swapItems result i (random i))
  end.

Definition shuffle (random : nat → nat) (array : list A) : list A :=
  shuffleFrom (length array - 1) random array.

(** [Set.prototype.add] on a set kept in insertion order; the elements
    are values on which the set's comparison is equality (strings,
    numbers other than [NaN]). *)
Definition setAdd (x : A) (s : list A) : list A :=
  if decide (x ∈ s) then s else s ++ [x].

(** [[...new Set(array)]] *)
Definition unique (array : list A) : list A :=
  foldl (λ s x, setAdd x s) [] array.

(** [randomElement]; [random] is the index
    [Math.floor(Math.random() * array.length)]. *)
Definition randomElement (random : nat) (array : list A) : option A :=
  if decide (length array = 0%nat) then None else array !! random.

End Arrays.

End Helpers.

(** ** The game interface built on the managers *)

Module Api.

(** The players of the interface: ['self' | 'opponent']. *)
Inductive Player := self | opponent.

Definition Player_id (p : Player) : string :=
  match p with self => "self" | opponent => "opponent" end.

Record AlphaClashConfig := {
  debug : option bool;
  startingLife : option Z;
  skipFirstDraw : option bool;
}.

(** What the interface object closes over. *)
Record World := {
  lifeManager : Life.LifeManager;
  tokenManager : Token.TokenManager;
  heap : Token.Heap;
  turnManager : Turn.TurnManager;
  soundEnabled : bool;
  debugEnabled : bool;
}.

(** [getLifeManager] and [getTokenManager]: the process-wide instance, made
    with the default configuration when there is none yet. *)
Definition getLifeManager (defaultLifeManager : option Life.LifeManager)
  : Life.LifeManager :=
  default (Life.constructor Life.DEFAULT_CONFIG) defaultLifeManager.

Definition getTokenManager (defaultTokenManager : option Token.TokenManager)
  : Token.TokenManager :=
  default (Token.constructor Token.DEFAULT_CONFIG) defaultTokenManager.

Definition initializeAlphaClash (cfg : AlphaClashConfig)
    (defaultLifeManager : option Life.LifeManager)
    (defaultTokenManager : option Token.TokenManager) (h : Token.Heap) : World :=
  let debugEnabled := default false (debug cfg) in
  let startingLife := default 20 (startingLife cfg) in
  let skipFirstDraw := default true (skipFirstDraw cfg) in
  let lifeManager := getLifeManager defaultLifeManager in
  let tokenManager := getTokenManager defaultTokenManager in
  let lifeManager :=
    (Life.initializePlayer "self" (Some startingLife) lifeManager).1 in
  let lifeManager :=
    (Life.initializePlayer "opponent" (Some startingLife) lifeManager).1 in
  let turnManager :=
    Turn.constructor "self" "opponent"
      {| Turn.skipFirstDraw := skipFirstDraw;
         Turn.resourcesPerTurn := Turn.resourcesPerTurn Turn.DEFAULT_CONFIG;
         Turn.drawsPerTurn := Turn.drawsPerTurn Turn.DEFAULT_CONFIG |} in
  {| lifeManager := lifeManager; tokenManager := tokenManager; heap := h;
     turnManager := turnManager; soundEnabled := true;
     debugEnabled := debugEnabled |}.

Definition with_life (w : World) (r : Life.LifeManager) : World :=
  {| lifeManager := r; tokenManager := tokenManager w; heap := heap w;
     turnManager := turnManager w; soundEnabled := soundEnabled w;
     debugEnabled := debugEnabled w |}.

Definition with_turn (w : World) (t : Turn.TurnManager) : World :=
  {| lifeManager := lifeManager w; tokenManager := tokenManager w;
     heap := heap w; turnManager := t; soundEnabled := soundEnabled w;
     debugEnabled := debugEnabled w |}.

Definition with_tokens (w : World) (t : Token.TokenManager) (h : Token.Heap)
  : World :=
  {| lifeManager := lifeManager w; tokenManager := t; heap := h;
     turnManager := turnManager w; soundEnabled := soundEnabled w;
     debugEnabled := debugEnabled w |}.

(** The calls of the interface; each returns the world it leaves and what
    the call returns or throws. *)
Definition setLife (player : Player) (amount : Z) (w : World)
  : World * Result unit :=
  match Life.setLife (Player_id player) amount None (lifeManager w) with
  | (r, Ok _) => (with_life w r, Ok tt)
  | (r, Throw e) => (with_life w r, Throw e)
  end.

Definition changeLife (player : Player) (delta : Z) (w : World)
  : World * Result unit :=
  match Life.changeLife (Player_id player) delta None (lifeManager w) with
  | (r, Ok _) => (with_life w r, Ok tt)
  | (r, Throw e) => (with_life w r, Throw e)
  end.

Definition getLife (player : Player) (w : World) : Result Z :=
  (Life.getLife (Player_id player) (lifeManager w)).2.

Definition getTurn (w : World) : Z := Turn.getTurnNumber (turnManager w).

Definition setPhase (p : Turn.TurnPhase) (w : World) : World * Result unit :=
  let '(t, r) := Turn.setPhase p (turnManager w) in (with_turn w t, r).

Definition getPhase (w : World) : Turn.TurnPhase :=
  Turn.getCurrentPhase (turnManager w).

Definition endTurn (w : World) : World :=
  with_turn w (Turn.endTurn (turnManager w)).1.

Definition nextPhase (w : World) : World :=
  with_turn w (Turn.nextPhase (turnManager w)).1.

Definition addToken (cardId : string) (tokenId : Token.TokenId)
    (count : option Z) (w : World) : World * Z :=
  let '(n, t, h) :=
    Token.addToken cardId tokenId (default 1 count) (tokenManager w) (heap w) in
  (with_tokens w t h, n).

Definition removeToken (cardId : string) (tokenId : Token.TokenId)
    (count : option Z) (w : World) : World * Z :=
  let '(n, t, h) :=
    Token.removeToken cardId tokenId (default 1 count) (tokenManager w) (heap w) in
  (with_tokens w t h, n).

Definition getTokens (cardId : string) (w : World) : Token.TokenState :=
  Token.getTokensOnCard cardId (tokenManager w) (heap w).

Definition clearTokens (cardId : string) (w : World) : World :=
  with_tokens w (Token.clearTokens cardId (tokenManager w)) (heap w).

(** [setTurn] only writes a debug message. *)
Definition setTurn (turnNumber : Z) (w : World) : World := w.

Definition toggleSound (w : World) : World * bool :=
  ({| lifeManager := lifeManager w; tokenManager := tokenManager w;
      heap := heap w; turnManager := turnManager w;
      soundEnabled := negb (soundEnabled w);
      debugEnabled := debugEnabled w |},
   negb (soundEnabled w)).

(** The calls that change the world, as a command language. *)
Inductive Call :=
  | CallSetLife (player : Player) (amount : Z)
  | CallChangeLife (player : Player) (delta : Z)
  | CallSetPhase (p : Turn.TurnPhase)
  | CallEndTurn
  | CallNextPhase
  | CallAddToken (cardId : string) (tokenId : Token.TokenId) (count : option Z)
  | CallRemoveToken (cardId : string) (tokenId : Token.TokenId) (count : option Z)
  | CallClearTokens (cardId : string)
  | CallSetTurn (turnNumber : Z)
  | CallToggleSound.

Definition call (w : World) (c : Call) : World :=
  match c with
  | CallSetLife p a => (setLife p a w).1
  | CallChangeLife p d => (changeLife p d w).1
  | CallSetPhase p => (setPhase p w).1
  | CallEndTurn => endTurn w
  | CallNextPhase => nextPhase w
  | CallAddToken c t n => (addToken c t n w).1
  | CallRemoveToken c t n => (removeToken c t n w).1
  | CallClearTokens c => clearTokens c w
  | CallSetTurn n => setTurn n w
  | CallToggleSound => (toggleSound w).1
  end.

Definition calls (cs : list Call) (w : World) : World := foldl call w cs.

End Api.

(** * Properties *)

(** ** Turn manager *)

Section TurnProperties.
Import Turn.

Lemma getNextPhase_table :
  map getNextPhase TURN_PHASES
  = [untap; draw; resource; main; clash; main2; end_; start].
Proof. reflexivity. Qed.

Lemma setAction_draw_defaults :
  setAction (DEFAULT_PHASE_ACTIONS draw) KCanDraw false
  = mkActions false false false false false.
Proof. reflexivity. Qed.

(** Outside the end phase [nextPhase] keeps turn number and active player
    and notifies the phase listeners. *)
Lemma nextPhase_not_end (m : TurnManager) :
  phase (state m) ≠ end_ →
  let actions :=
    if bool_decide (getNextPhase (phase (state m)) = draw)
       && bool_decide (turnNumber (state m) = 1)
       && skipFirstDraw (config m)
    then setAction (DEFAULT_PHASE_ACTIONS (getNextPhase (phase (state m))))
           KCanDraw false
    else DEFAULT_PHASE_ACTIONS (getNextPhase (phase (state m))) in
  let event := {| previousPhase := phase (state m);
                  newPhase := getNextPhase (phase (state m));
                  pc_turnNumber := turnNumber (state m) |} in
  nextPhase m
  = (notifyPhaseListeners
       (with_state m {| turnNumber := turnNumber (state m);
                        phase := getNextPhase (phase (state m));
                        activePlayerId := activePlayerId (state m);
                        phaseActionsRemaining := actions |})
       event, event).
Proof.
  intros Hne. unfold nextPhase.
  rewrite (bool_decide_eq_false_2 _ Hne). reflexivity.
Qed.

(** In the end phase [nextPhase] is [endTurn] and the event is built from
    the state [endTurn] leaves. *)
Lemma nextPhase_end (m : TurnManager) :
  phase (state m) = end_ →
  nextPhase m
  = ((endTurn m).1,
     {| previousPhase := end_; newPhase := start;
        pc_turnNumber := turnNumber (state m) + 1 |}).
Proof.
  intros He. unfold nextPhase. rewrite He. reflexivity.
Qed.

(** C1: from a newly constructed manager with the default configuration,
    eight calls of [nextPhase] visit start, untap, draw, resource, main,
    clash, main2, end and start again; the turn number is 1 up to the end
    phase and 2 after the eighth call, and the active player is the first
    player up to the end phase and the second player after the eighth
    call. *)
Theorem phase_cycle (player1Id player2Id : string) :
  let ms := nextPhases 8 (constructor player1Id player2Id DEFAULT_CONFIG) in
  map getCurrentPhase ms
  = [start; untap; draw; resource; main; clash; main2; end_; start]
  ∧ map getTurnNumber ms = [1; 1; 1; 1; 1; 1; 1; 1; 2]
  ∧ map getActivePlayerId ms
    = [player1Id; player1Id; player1Id; player1Id; player1Id; player1Id;
       player1Id; player1Id; player2Id].
Proof.
  cbv -[String.eq_dec].
  destruct (String.eq_dec player1Id player1Id); [done | congruence].
Qed.

(** [nextPhase] enters the draw phase from untap and from no other phase. *)
Lemma nextPhase_enters_draw (m : TurnManager) :
  getCurrentPhase (nextPhase m).1 = draw ↔ phase (state m) = untap.
Proof.
  destruct (decide (phase (state m) = end_)) as [He | Hne].
  - rewrite (nextPhase_end m He), He. by split.
  - pose proof (nextPhase_not_end m Hne) as Hn. cbn zeta in Hn. rewrite Hn.
    cbn [fst]. unfold getCurrentPhase, notifyPhaseListeners, with_state.
    cbn [state phase].
    by destruct (phase (state m)).
Qed.

(** C5: entering the draw phase, in every state of the manager.
    [nextPhase] enters draw exactly from untap.  When it does so with
    [skipFirstDraw] on turn 1, [canDraw] is false and every other action
    flag has the default of the draw phase; when it does so on a turn number
    above 1, the flags are the draw defaults, with [canDraw] true.
    [setPhase] to draw, whatever the phase, the turn number and the
    configuration it is called in, does not throw and installs the draw
    defaults, with [canDraw] true. *)
Theorem first_turn_draw_suppression (m : TurnManager) :
  (getCurrentPhase (nextPhase m).1 = draw ↔ phase (state m) = untap)
  ∧ (skipFirstDraw (config m) = true → turnNumber (state m) = 1 →
     getCurrentPhase (nextPhase m).1 = draw →
     getPhaseActions (nextPhase m).1
     = setAction (DEFAULT_PHASE_ACTIONS draw) KCanDraw false
     ∧ canDraw (getPhaseActions (nextPhase m).1) = false
     ∧ ∀ k, k ≠ KCanDraw →
         getAction (getPhaseActions (nextPhase m).1) k
         = getAction (DEFAULT_PHASE_ACTIONS draw) k)
  ∧ ((setPhase draw m).2 = Ok tt
     ∧ getCurrentPhase (setPhase draw m).1 = draw
     ∧ getPhaseActions (setPhase draw m).1 = DEFAULT_PHASE_ACTIONS draw
     ∧ canDraw (getPhaseActions (setPhase draw m).1) = true)
  ∧ (1 < turnNumber (state m) →
     getCurrentPhase (nextPhase m).1 = draw →
     getPhaseActions (nextPhase m).1 = DEFAULT_PHASE_ACTIONS draw
     ∧ canDraw (getPhaseActions (nextPhase m).1) = true).
Proof.
  pose proof (nextPhase_enters_draw m) as Hiff.
  assert (Hn : phase (state m) = untap →
    getPhaseActions (nextPhase m).1
    = if bool_decide (turnNumber (state m) = 1) && skipFirstDraw (config m)
      then setAction (DEFAULT_PHASE_ACTIONS draw) KCanDraw false
      else DEFAULT_PHASE_ACTIONS draw).
  { intros Hu.
    assert (Hne : phase (state m) ≠ end_) by (rewrite Hu; discriminate).
    pose proof (nextPhase_not_end m Hne) as Hn. cbn zeta in Hn.
    rewrite Hu in Hn. change (getNextPhase untap) with draw in Hn.
    by rewrite Hn. }
  split; [exact Hiff |]. split; [| split].
  - intros Hs H1 Hd%Hiff. rewrite (Hn Hd), Hs.
    rewrite (bool_decide_eq_true_2 _ H1).
    split; [done |]. split; [done |]. by intros [].
  - done.
  - intros Hlt Hd%Hiff. rewrite (Hn Hd).
    rewrite (bool_decide_eq_false_2 (turnNumber (state m) = 1)) by lia. done.
Qed.

(** A two-player game with the default configuration: the draw phase
    entered by [nextPhase] on turn 1 and on turn 2, and by [setPhase] on
    turn 1 from the start phase and from untap. *)
Lemma first_turn_draw_suppression_witness :
  let m0 := constructor "p1" "p2" DEFAULT_CONFIG in
  let m1 := (nextPhase m0).1 in
  let m2 := (nextPhase (endTurn m0).1).1 in
  canDraw (getPhaseActions (nextPhase m1).1) = false
  ∧ canDraw (getPhaseActions (setPhase draw m0).1) = true
  ∧ canDraw (getPhaseActions (setPhase draw m1).1) = true
  ∧ canDraw (getPhaseActions (nextPhase m2).1) = true.
Proof.
  intros m0 m1 m2.
  destruct (first_turn_draw_suppression m0) as (_ & _ & (_ & _ & _ & B0) & _).
  destruct (first_turn_draw_suppression m1) as (E1 & A & (_ & _ & _ & B1) & _).
  destruct (first_turn_draw_suppression m2) as (E2 & _ & _ & C).
  split; [| split; [| split]].
  - apply A; [reflexivity | reflexivity |]. by apply E1.
  - exact B0.
  - exact B1.
  - apply C; [reflexivity |]. by apply E2.
Defined.

(** C6, as the claim states it, fails: a phase listener is registered, the
    manager is brought to the end phase, and the next call of [nextPhase]
    returns an event with [newPhase] start and turn number 2 while nothing
    is delivered to the listener. *)
Lemma nextPhase_end_no_phase_notification :
  let m0 := addPhaseListener 0%nat (constructor "p1" "p2" DEFAULT_CONFIG) in
  let m7 := List.last (nextPhases 7 m0) m0 in
  phaseListeners m7 = [0%nat]
  ∧ getCurrentPhase m7 = end_
  ∧ (nextPhase m7).2
    = {| previousPhase := end_; newPhase := start; pc_turnNumber := 2 |}
  ∧ delivered (nextPhase m7).1 = delivered m7
  ∧ ¬ (∀ cb, cb ∈ phaseListeners m7 →
         PhaseDelivered cb (nextPhase m7).2 ∈ delivered (nextPhase m7).1).
Proof.
  cbn zeta. do 4 (split; [vm_compute; reflexivity |]).
  intros H. specialize (H 0%nat (list_elem_of_here _ _)).
  apply list_elem_of_In in H. vm_compute in H.
  intuition discriminate.
Qed.

(** C6, amended: in a phase other than end, [nextPhase] hands the event it
    returns, made of the previous phase, the next phase and the turn
    number, to every phase listener in registration order; in the end phase
    it hands the turn-change event of [endTurn] to every turn listener,
    nothing to the phase listeners, and returns an event with previous
    phase end, new phase start and the incremented turn number. *)
Theorem nextPhase_notifications (m : TurnManager) :
  let '(m', event) := nextPhase m in
  if decide (phase (state m) = end_) then
    event = {| previousPhase := end_; newPhase := start;
               pc_turnNumber := turnNumber (state m) + 1 |}
    ∧ getCurrentPhase m' = start
    ∧ getTurnNumber m' = turnNumber (state m) + 1
    ∧ delivered m'
      = delivered m
        ++ map (λ cb, TurnDelivered cb
                        {| previousTurn := turnNumber (state m);
                           newTurn := turnNumber (state m) + 1;
                           tc_activePlayerId := getActivePlayerId m' |})
               (turnListeners m)
  else
    event = {| previousPhase := phase (state m);
               newPhase := getNextPhase (phase (state m));
               pc_turnNumber := turnNumber (state m) |}
    ∧ getCurrentPhase m' = getNextPhase (phase (state m))
    ∧ getTurnNumber m' = turnNumber (state m)
    ∧ delivered m'
      = delivered m ++ map (λ cb, PhaseDelivered cb event) (phaseListeners m).
Proof.
  destruct (decide (phase (state m) = end_)) as [He | Hne].
  - rewrite (nextPhase_end m He). done.
  - rewrite (nextPhase_not_end m Hne). done.
Qed.

End TurnProperties.

(** ** Life manager *)

Section LifeProperties.
Import Life.

Lemma getLife_Some (m : LifeManager) (playerId : string) (life : Z) :
  lifeTotals m !! playerId = Some life → getLife playerId m = (m, Ok life).
Proof. intros H. unfold getLife. run_monad. by rewrite H. Qed.

Lemma getLife_None (m : LifeManager) (playerId : string) :
  lifeTotals m !! playerId = None →
  getLife playerId m
  = (m, Throw (NotFound ("Player " +:+ playerId +:+ " not found"))).
Proof. intros H. unfold getLife. run_monad. by rewrite H. Qed.

(** The manager [setLife] leaves behind for an initialized player. *)
Lemma setLife_Some (m : LifeManager) (playerId : string) (previous life : Z)
    (source : option string) :
  lifeTotals m !! playerId = Some previous →
  let event := {| playerId := playerId; previousLife := previous;
                  newLife := clampLife (config m) life;
                  change := clampLife (config m) life - previous;
                  source := source |} in
  setLife playerId life source m
  = ((notifyListeners event
        (set_lifeTotals
           (<[playerId := clampLife (config m) life]> (lifeTotals m)) m)).1,
     Ok event).
Proof.
  intros H. unfold setLife, bind at 1. rewrite (getLife_Some _ _ _ H).
  reflexivity.
Qed.

Lemma setLife_None (m : LifeManager) (playerId : string) (life : Z)
    (source : option string) :
  lifeTotals m !! playerId = None → (setLife playerId life source m).1 = m.
Proof.
  intros H. unfold setLife, bind at 1. by rewrite (getLife_None _ _ H).
Qed.

Lemma changeLife_Some (m : LifeManager) (playerId : string) (previous amount : Z)
    (source : option string) :
  lifeTotals m !! playerId = Some previous →
  changeLife playerId amount source m
  = setLife playerId (previous + amount) source m.
Proof.
  intros H. unfold changeLife, bind at 1. by rewrite (getLife_Some _ _ _ H).
Qed.

Lemma changeLife_None (m : LifeManager) (playerId : string) (amount : Z)
    (source : option string) :
  lifeTotals m !! playerId = None → (changeLife playerId amount source m).1 = m.
Proof.
  intros H. unfold changeLife, bind at 1. by rewrite (getLife_None _ _ H).
Qed.

Lemma clampLife_inRange (cfg : LifeManagerConfig) (life : Z) :
  (∀ hi, maxLife cfg = Some hi → minLife cfg ≤ hi) →
  inRange cfg (clampLife cfg life).
Proof.
  intros Hsane. unfold inRange, clampLife.
  destruct (maxLife cfg) as [hi |].
  - specialize (Hsane hi eq_refl). split; [lia |].
    intros ? [= <-]. lia.
  - split; [lia | done].
Qed.

Lemma clampLife_at_minLife (cfg : LifeManagerConfig) (amount : Z) :
  (∀ hi, maxLife cfg = Some hi → minLife cfg ≤ hi) → 0 ≤ amount →
  clampLife cfg (minLife cfg - amount) = minLife cfg.
Proof.
  intros Hsane Ha. unfold clampLife.
  destruct (maxLife cfg) as [hi |]; [specialize (Hsane hi eq_refl) |]; lia.
Qed.

(** *** The range invariant *)

Section Invariant.
Variable cfg : LifeManagerConfig.
Hypothesis cfg_sane : ∀ hi, maxLife cfg = Some hi → minLife cfg ≤ hi.

Lemma lifeInv_constructor : lifeInv cfg (constructor cfg).
Proof. split; [done |]. intros ? ?. cbn. by rewrite lookup_empty. Qed.

Lemma lifeInv_store (m : LifeManager) (playerId : string) (life : Z) :
  lifeInv cfg m → inRange cfg life →
  lifeInv cfg (set_lifeTotals (<[playerId := life]> (lifeTotals m)) m).
Proof.
  intros [Hc Hr] Hl. split; [done |]. cbn. intros p v.
  rewrite lookup_insert. case_decide.
  - by intros [= <-].
  - apply Hr.
Qed.

Lemma lifeInv_setLife (m : LifeManager) playerId life source :
  lifeInv cfg m → lifeInv cfg (setLife playerId life source m).1.
Proof.
  intros Hi. destruct (lifeTotals m !! playerId) as [previous |] eqn:Hp.
  - rewrite (setLife_Some _ _ _ _ _ Hp). cbn.
    destruct (lifeInv_store m playerId (clampLife (config m) life) Hi) as [Hc Hr].
    { destruct Hi as [-> _]. by apply clampLife_inRange. }
    split; [exact Hc | exact Hr].
  - by rewrite setLife_None.
Qed.

Lemma lifeInv_changeLife (m : LifeManager) playerId amount source :
  lifeInv cfg m → lifeInv cfg (changeLife playerId amount source m).1.
Proof.
  intros Hi. destruct (lifeTotals m !! playerId) as [previous |] eqn:Hp.
  - rewrite (changeLife_Some _ _ _ _ _ Hp). by apply lifeInv_setLife.
  - by rewrite changeLife_None.
Qed.

Lemma lifeInv_resetLife (m : LifeManager) playerId :
  lifeInv cfg m → lifeInv cfg (resetLife playerId m).1.
Proof.
  intros Hi. unfold resetLife. run_monad.
  pose proof (lifeInv_setLife m playerId (startingLife (config m))
                (Some "reset") Hi) as Hs.
  by destruct (setLife _ _ _ m) as [m' [ev | e]].
Qed.

Lemma lifeInv_forEach (ids : list string) (m : LifeManager) :
  lifeInv cfg m → lifeInv cfg (forEach ids resetLife m).1.
Proof.
  revert m. induction ids as [| playerId ids IH]; intros m Hi; [done |].
  cbn [forEach]. unfold bind.
  pose proof (lifeInv_resetLife m playerId Hi) as Hs.
  destruct (resetLife playerId m) as [m' [[] | e]]; [by apply IH | done].
Qed.

Lemma lifeInv_step (m : LifeManager) (op : Op) :
  (∀ life, initialLife cfg op = Some life → inRange cfg life) →
  lifeInv cfg m → lifeInv cfg (step m op).
Proof.
  intros Hinit Hi. unfold step.
  destruct op as [p l | p l s | p a s | p a s | p a s | p |]; cbn [perform].
  - unfold initializePlayer. run_monad.
    apply lifeInv_store; [done |].
    destruct Hi as [-> _]. by apply Hinit.
  - pose proof (lifeInv_setLife m p l s Hi) as Hs. run_monad.
    by destruct (setLife p l s m) as [m' [ev | e]].
  - pose proof (lifeInv_changeLife m p a s Hi) as Hs. run_monad.
    by destruct (changeLife p a s m) as [m' [ev | e]].
  - unfold dealDamage. case_bool_decide; [done |].
    pose proof (lifeInv_changeLife m p (- a) s Hi) as Hs. run_monad.
    by destruct (changeLife p (- a) s m) as [m' [ev | e]].
  - unfold heal. case_bool_decide; [done |].
    pose proof (lifeInv_changeLife m p a s Hi) as Hs. run_monad.
    by destruct (changeLife p a s m) as [m' [ev | e]].
  - by apply lifeInv_resetLife.
  - unfold resetAllLife. run_monad. by apply lifeInv_forEach.
Qed.

Lemma lifeInv_run (ops : list Op) (m : LifeManager) :
  Forall (λ op, ∀ life, initialLife cfg op = Some life → inRange cfg life) ops →
  lifeInv cfg m → lifeInv cfg (run ops m).
Proof.
  intros Hops. revert m. induction Hops as [| op ops Hop _ IH]; intros m Hi.
  - done.
  - cbn. apply IH. by apply lifeInv_step.
Qed.

End Invariant.

(** C3, as the claim states it, fails: [initializePlayer] stores the life
    it is given, so with the default configuration a call with -5 leaves
    the total -5, below [minLife] 0. *)
Lemma initializePlayer_out_of_range :
  let m := run [OpInitializePlayer "p1" (Some (-5))] (constructor DEFAULT_CONFIG) in
  lifeTotals m !! "p1" = Some (-5) ∧ ¬ inRange (config m) (-5).
Proof.
  split; [by vm_compute |].
  intros [Hlo _]. vm_compute in Hlo. by apply Hlo.
Qed.

(** C3, amended: when the configured [maxLife], if any, is not below
    [minLife], and every [initializePlayer] call stores a life within
    the range (the life it is given or, without one, the configured
    starting life), then after every sequence of [initializePlayer],
    [setLife], [changeLife], [dealDamage], [heal], [resetLife] and
    [resetAllLife] calls on a new manager every stored life total lies
    within the range from [minLife] to [maxLife], without an upper end when
    [maxLife] is null. *)
Theorem stored_life_in_range (cfg : LifeManagerConfig) (ops : list Op)
    (playerId : string) (life : Z) :
  (∀ hi, maxLife cfg = Some hi → minLife cfg ≤ hi) →
  Forall (λ op, ∀ life, initialLife cfg op = Some life → inRange cfg life) ops →
  lifeTotals (run ops (constructor cfg)) !! playerId = Some life →
  inRange cfg life.
Proof.
  intros Hsane Hops Hl.
  destruct (lifeInv_run cfg Hsane ops (constructor cfg) Hops
              (lifeInv_constructor cfg)) as [_ Hr].
  by apply (Hr playerId).
Qed.

(** A game with life capped at 30: after initialization, damage, healing,
    a reset and a large [setLife], the first player's life is 30. *)
Lemma stored_life_in_range_witness :
  inRange {| startingLife := 20; minLife := 0; maxLife := Some 30 |} 30.
Proof.
  apply (stored_life_in_range
           {| startingLife := 20; minLife := 0; maxLife := Some 30 |}
           [OpInitializePlayer "p1" None; OpInitializePlayer "p2" (Some 7);
            OpDealDamage "p1" 25 None; OpHeal "p1" 100 (Some "potion");
            OpResetAllLife; OpSetLife "p1" 1000 None]
           "p1" 30).
  - cbn. intros hi [= <-]. lia.
  - repeat (apply Forall_cons_2;
            [cbn; intros life E; try discriminate E; injection E as <-;
             (split; [cbn; lia | cbn; intros hi [= <-]; lia]) |]).
    apply Forall_nil_2.
  - by vm_compute.
Defined.

(** C7: for an initialized player, [dealDamage] and [heal] with a negative
    amount throw the invalid-argument error and leave the manager, hence
    the player's life and the whole map of life totals, as it was; with an
    amount that is not negative they are [changeLife] with the negated
    amount and with the amount. *)
Theorem dealDamage_heal_amount_check (m : LifeManager) (playerId : string)
    (life amount : Z) (source : option string) :
  lifeTotals m !! playerId = Some life →
  (amount < 0 →
     dealDamage playerId amount source m
     = (m, Throw (InvalidArgument "Damage amount must be non-negative"))
     ∧ heal playerId amount source m
       = (m, Throw (InvalidArgument "Heal amount must be non-negative"))
     ∧ lifeTotals (dealDamage playerId amount source m).1 = lifeTotals m
     ∧ lifeTotals (heal playerId amount source m).1 = lifeTotals m
     ∧ getLife playerId (dealDamage playerId amount source m).1
       = (m, Ok life)
     ∧ getLife playerId (heal playerId amount source m).1 = (m, Ok life))
  ∧ (0 ≤ amount →
     dealDamage playerId amount source m
     = changeLife playerId (- amount) source m
     ∧ heal playerId amount source m = changeLife playerId amount source m).
Proof.
  intros Hl. split; intros Ha; unfold dealDamage, heal.
  - rewrite !(bool_decide_eq_true_2 (amount < 0)) by done.
    unfold throw. cbn [fst]. rewrite (getLife_Some _ _ _ Hl). done.
  - rewrite !(bool_decide_eq_false_2 (amount < 0)) by lia. done.
Qed.

(** A player at 20 life, amounts -5 and 5. *)
Lemma dealDamage_heal_amount_check_witness :
  let m := (initializePlayer "p1" (Some 20) (constructor DEFAULT_CONFIG)).1 in
  (dealDamage "p1" (-5) None m).1 = m
  ∧ (heal "p1" (-5) None m).1 = m
  ∧ dealDamage "p1" 5 None m = changeLife "p1" (-5) None m
  ∧ heal "p1" 5 None m = changeLife "p1" 5 None m.
Proof.
  intros m.
  assert (Hl : lifeTotals m !! "p1" = Some 20) by (by vm_compute).
  destruct (dealDamage_heal_amount_check m "p1" 20 (-5) None Hl) as [Hneg _].
  destruct (dealDamage_heal_amount_check m "p1" 20 5 None Hl) as [_ Hpos].
  destruct Hneg as (Hd & Hh & _); [lia |].
  destruct Hpos as (Hd' & Hh'); [lia |].
  rewrite Hd, Hh. repeat split; assumption.
Defined.

(** C10: for an initialized player [setLife] returns a life-change event
    and hands it to every listener in registration order, whatever the
    clamped value is; when the clamped value is the previous life the
    event has change 0 and new life equal to previous life.  [changeLife],
    and [dealDamage] and [heal] with an amount that is not negative, are
    such [setLife] calls; in particular [dealDamage] on a player whose life
    is [minLife], in a configuration whose [maxLife] is not below
    [minLife], emits an event with change 0. *)
Theorem setLife_always_emits (m : LifeManager) (playerId : string)
    (previous : Z) (source : option string) :
  lifeTotals m !! playerId = Some previous →
  (∀ life,
     let event := {| playerId := playerId; previousLife := previous;
                     newLife := clampLife (config m) life;
                     change := clampLife (config m) life - previous;
                     source := source |} in
     (setLife playerId life source m).2 = Ok event
     ∧ delivered (setLife playerId life source m).1
       = delivered m ++ map (λ cb, (cb, event)) (listeners m)
     ∧ (clampLife (config m) life = previous →
        change event = 0 ∧ newLife event = previousLife event))
  ∧ (∀ amount,
       changeLife playerId amount source m
       = setLife playerId (previous + amount) source m)
  ∧ (∀ amount, 0 ≤ amount →
       dealDamage playerId amount source m
       = setLife playerId (previous - amount) source m
       ∧ heal playerId amount source m
         = setLife playerId (previous + amount) source m)
  ∧ (∀ amount, 0 ≤ amount → previous = minLife (config m) →
       (∀ hi, maxLife (config m) = Some hi → minLife (config m) ≤ hi) →
       let event := {| playerId := playerId; previousLife := previous;
                       newLife := previous; change := 0; source := source |} in
       (dealDamage playerId amount source m).2 = Ok event
       ∧ delivered (dealDamage playerId amount source m).1
         = delivered m ++ map (λ cb, (cb, event)) (listeners m)).
Proof.
  intros Hl.
  assert (Hchange : ∀ amount,
    changeLife playerId amount source m
    = setLife playerId (previous + amount) source m).
  { intros amount. by apply changeLife_Some. }
  assert (Hdeal : ∀ amount, 0 ≤ amount →
    dealDamage playerId amount source m
    = setLife playerId (previous - amount) source m).
  { intros amount Ha. unfold dealDamage.
    rewrite (bool_decide_eq_false_2 (amount < 0)) by lia.
    rewrite Hchange. f_equal. }
  split; [| split; [| split]].
  - intros life event. rewrite (setLife_Some _ _ _ life source Hl).
    fold event. cbn. split; [done |]. split; [done |].
    intros ->. split; [lia | done].
  - exact Hchange.
  - intros amount Ha. split; [by apply Hdeal |].
    unfold heal. rewrite (bool_decide_eq_false_2 (amount < 0)) by lia.
    apply Hchange.
  - intros amount Ha Hmin Hsane event.
    rewrite (Hdeal amount Ha), (setLife_Some _ _ _ _ source Hl). cbn.
    assert (Hc : clampLife (config m) (previous - amount) = previous).
    { rewrite Hmin. by apply clampLife_at_minLife. }
    rewrite Hc, Z.sub_diag. done.
Qed.

(** A player at 0 life with one listener: 3 damage emits a zero change. *)
Lemma setLife_always_emits_witness :
  let m := (initializePlayer "p1" (Some 0)
              (addListener 7%nat (constructor DEFAULT_CONFIG)).1).1 in
  let event := {| playerId := "p1"; previousLife := 0; newLife := 0;
                  change := 0; source := Some "spell" |} in
  (dealDamage "p1" 3 (Some "spell") m).2 = Ok event
  ∧ delivered (dealDamage "p1" 3 (Some "spell") m).1 = [(7%nat, event)].
Proof.
  intros m event.
  assert (Hl : lifeTotals m !! "p1" = Some 0) by (by vm_compute).
  destruct (setLife_always_emits m "p1" 0 (Some "spell") Hl)
    as (_ & _ & _ & Hmin).
  apply (Hmin 3); [lia | reflexivity |].
  cbn. intros hi [=].
Defined.

End LifeProperties.

(** ** Token manager *)

Section TokenProperties.
Import Token.

Lemma deref_store_eq (h : Heap) (l : loc) (o : TokenState) :
  deref (store l o h) l = o.
Proof. unfold deref, store. cbn. by rewrite lookup_insert_eq. Qed.

Lemma deref_store_ne (h : Heap) (l l' : loc) (o : TokenState) :
  l ≠ l' → deref (store l o h) l' = deref h l'.
Proof. intros Hne. unfold deref, store. cbn. by rewrite lookup_insert_ne. Qed.

Lemma deref_alloc (h : Heap) (o : TokenState) :
  deref (alloc o h).2 (alloc o h).1 = o.
Proof. unfold deref, alloc. cbn. by rewrite lookup_insert_eq. Qed.

(** [addToken] then [removeToken] on the token object of one card: the
    count that is left, and the object that is left. *)
Lemma add_remove_count (before count limit : Z) :
  1 ≤ count →
  before = 0 ∨ (0 ≤ before ∧ before + count ≤ limit) →
  Z.max (Z.min (before + count) limit - count) 0 = before.
Proof. lia. Qed.

Lemma size_insert_pos (o : TokenState) (tokenId : TokenId) (count : Z) :
  size (<[tokenId := count]> o) ≠ 0%nat.
Proof.
  intros Hs. apply map_size_empty_iff in Hs.
  by apply insert_non_empty in Hs.
Qed.

Lemma only_kind_delete (o : TokenState) (tokenId : TokenId) :
  (∀ k, k ≠ tokenId → o !! k = None) → delete tokenId o = ∅.
Proof.
  intros Honly. apply map_eq. intros k. rewrite lookup_empty.
  destruct (decide (k = tokenId)) as [-> | Hne].
  - apply lookup_delete_eq.
  - rewrite lookup_delete_ne by done. by apply Honly.
Qed.

(** The two calls on a card whose token object is at [l]. *)
Lemma add_remove_at (m : TokenManager) (h : Heap) (cardId : string)
    (tokenId : TokenId) (count : Z) (l : loc) :
  tokens m !! cardId = Some l →
  1 ≤ count →
  let before := default 0 (deref h l !! tokenId) in
  before = 0 ∨ (0 ≤ before ∧ before + count ≤ maxCount m tokenId) →
  let '(_, m1, h1) := addToken cardId tokenId count m h in
  let '(_, m2, h2) := removeToken cardId tokenId count m1 h1 in
  getTokenCount cardId tokenId m2 h2 = before
  ∧ (before = 0 → (∀ k, k ≠ tokenId → deref h l !! k = None) →
     hasTokens cardId m2 h2 = false).
Proof.
  intros Hl Hc before Hb.
  unfold addToken. rewrite Hl. fold before.
  unfold removeToken. rewrite Hl, deref_store_eq, lookup_insert_eq.
  cbn [default from_option]. unfold Datatypes.id.
  rewrite (add_remove_count before count (maxCount m tokenId) Hc Hb).
  destruct (decide (before = 0)) as [H0 | H0].
  - rewrite delete_insert_eq.
    destruct (decide (size (delete tokenId (deref h l)) = 0%nat)) as [Hs | Hs].
    + unfold getTokenCount, hasTokens. cbn. rewrite lookup_delete_eq. done.
    + unfold getTokenCount, hasTokens. rewrite Hl, deref_store_eq.
      rewrite lookup_delete_eq. split; [done |].
      intros _ Honly. rewrite (only_kind_delete _ _ Honly) in Hs.
      by rewrite map_size_empty in Hs.
  - rewrite decide_False by apply size_insert_pos.
    unfold getTokenCount, hasTokens. rewrite Hl, deref_store_eq.
    rewrite lookup_insert_eq. done.
Qed.

(** *** The manager's invariant under additions of positive counts *)

Lemma positiveObject_insert (o : TokenState) (tokenId : TokenId) (count : Z) :
  (∀ k v, o !! k = Some v → 0 < v) → 0 < count →
  positiveObject (<[tokenId := count]> o).
Proof.
  intros Ho Hc. split; [apply insert_non_empty |].
  intros k v. rewrite lookup_insert. case_decide.
  - by intros [= <-].
  - apply Ho.
Qed.

Lemma positive_current (o : TokenState) (tokenId : TokenId) :
  (∀ k v, o !! k = Some v → 0 < v) → 0 ≤ default 0 (o !! tokenId).
Proof.
  intros Ho. destruct (o !! tokenId) as [v |] eqn:E; cbn; [| lia].
  specialize (Ho _ _ E). lia.
Qed.

Lemma maxCount_pos (m : TokenManager) (tokenId : TokenId) :
  1 ≤ stackLimit (config m) → 1 ≤ maxCount m tokenId.
Proof. intros H. unfold maxCount. by destruct (stackable _). Qed.

(** Overwriting the token object of a card with a positive object. *)
Lemma tokenInv_store (m : TokenManager) (h : Heap) (cardId : string) (l : loc)
    (o : TokenState) :
  tokenInv m h → tokens m !! cardId = Some l → positiveObject o →
  tokenInv m (store l o h).
Proof.
  intros (Hs & Hwf & Hinj & Hpos) Hl Ho.
  split; [done |]. split; [done |]. split; [done |].
  intros c l' H'. destruct (decide (l = l')) as [<- | Hne].
  - by rewrite deref_store_eq.
  - rewrite deref_store_ne by done. by apply (Hpos c).
Qed.

(** Dropping a card, whatever is left in its token object. *)
Lemma tokenInv_delete (m : TokenManager) (h : Heap) (cardId : string) (l : loc)
    (o : TokenState) :
  tokenInv m h → tokens m !! cardId = Some l →
  tokenInv (set_tokens (delete cardId (tokens m)) m) (store l o h).
Proof.
  intros (Hs & Hwf & Hinj & Hpos) Hl.
  assert (Hsub : ∀ c l', delete cardId (tokens m) !! c = Some l' →
                         c ≠ cardId ∧ tokens m !! c = Some l').
  { intros c l'. rewrite lookup_delete. case_decide; [done |].
    intros H'. split; [congruence | done]. }
  split; [done |]. split; [| split]; cbn.
  - intros c l' [_ H']%Hsub. by apply (Hwf c).
  - intros c c' l' [_ H1]%Hsub [_ H2]%Hsub. by apply (Hinj c c' l').
  - intros c l' [Hne H']%Hsub.
    assert (l ≠ l') by (intros <-; apply Hne; by apply (Hinj c cardId l)).
    rewrite deref_store_ne by done. by apply (Hpos c).
Qed.

(** Giving a new card a newly allocated positive object. *)
Lemma tokenInv_alloc (m : TokenManager) (h : Heap) (cardId : string)
    (o : TokenState) :
  tokenInv m h → tokens m !! cardId = None → positiveObject o →
  tokenInv (set_tokens (<[cardId := (alloc ∅ h).1]> (tokens m)) m)
    (store (alloc ∅ h).1 o (alloc ∅ h).2).
Proof.
  intros (Hs & Hwf & Hinj & Hpos) Hl Ho.
  split; [done |]. split; [| split]; cbn.
  - intros c l'. rewrite lookup_insert. case_decide.
    + intros [= <-]. lia.
    + intros H'. specialize (Hwf _ _ H'). lia.
  - intros c c' l'. rewrite !lookup_insert. repeat case_decide; subst.
    + done.
    + intros [= <-] H'. specialize (Hwf _ _ H'). lia.
    + intros H' [= <-]. specialize (Hwf _ _ H'). lia.
    + apply Hinj.
  - intros c l'. rewrite lookup_insert. case_decide.
    + intros [= <-]. by rewrite deref_store_eq.
    + intros H'. pose proof (Hwf _ _ H') as Hlt.
      rewrite deref_store_ne by lia.
      unfold deref, alloc. cbn. rewrite lookup_insert_ne by lia.
      by apply (Hpos c).
Qed.

Lemma tokenInv_addToken (m : TokenManager) (h : Heap) cardId tokenId count :
  1 ≤ count → tokenInv m h →
  let '(_, m', h') := addToken cardId tokenId count m h in tokenInv m' h'.
Proof.
  intros Hc Hi. pose proof Hi as (Hs & _ & _ & Hpos).
  pose proof (maxCount_pos m tokenId Hs) as Hmax.
  unfold addToken. destruct (tokens m !! cardId) as [l |] eqn:Hl.
  - destruct (Hpos _ _ Hl) as [_ Hp].
    pose proof (positive_current _ tokenId Hp).
    apply (tokenInv_store m h cardId); [done | done |].
    apply positiveObject_insert; [done | lia].
  - pose proof (deref_alloc h ∅) as Hd.
    pose proof (tokenInv_alloc m h cardId) as Ha.
    unfold alloc in Hd, Ha |- *. cbn [fst snd] in Hd, Ha |- *.
    rewrite Hd, lookup_empty. cbn [default from_option].
    apply Ha; [done | done |].
    apply positiveObject_insert; [| unfold maxCount in *; cbn; lia].
    intros k v. by rewrite lookup_empty.
Qed.

Lemma tokenInv_removeToken (m : TokenManager) (h : Heap) cardId tokenId count :
  tokenInv m h →
  let '(_, m', h') := removeToken cardId tokenId count m h in tokenInv m' h'.
Proof.
  intros Hi. pose proof Hi as (_ & _ & _ & Hpos).
  unfold removeToken. destruct (tokens m !! cardId) as [l |] eqn:Hl; [| done].
  destruct (Hpos _ _ Hl) as [_ Hp].
  set (new := Z.max (default 0 (deref h l !! tokenId) - count) 0).
  destruct (decide (new = 0)) as [H0 | H0].
  - destruct (decide (size (delete tokenId (deref h l)) = 0%nat)) as [Hz | Hz].
    + by apply tokenInv_delete.
    + apply (tokenInv_store m h cardId); [done | done |]. split.
      * intros He. apply Hz. by rewrite He, map_size_empty.
      * intros k v. rewrite lookup_delete. case_decide; [done | apply Hp].
  - rewrite decide_False by apply size_insert_pos.
    apply (tokenInv_store m h cardId); [done | done |].
    apply positiveObject_insert; [done | lia].
Qed.

Lemma tokenInv_setTokenCount (m : TokenManager) (h : Heap) cardId tokenId count :
  tokenInv m h →
  let '(m', h') := setTokenCount cardId tokenId count m h in tokenInv m' h'.
Proof.
  intros Hi. pose proof Hi as (Hs & _ & _ & Hpos).
  pose proof (maxCount_pos m tokenId Hs) as Hmax.
  unfold setTokenCount.
  destruct (decide (Z.min (Z.max count 0) (maxCount m tokenId) = 0)) as [H0 | H0].
  - pose proof (tokenInv_removeToken m h cardId tokenId
                  (getTokenCount cardId tokenId m h) Hi) as Hr.
    by destruct (removeToken _ _ _ m h) as [[r m'] h'].
  - destruct (tokens m !! cardId) as [l |] eqn:Hl.
    + destruct (Hpos _ _ Hl) as [_ Hp].
      apply (tokenInv_store m h cardId); [done | done |].
      apply positiveObject_insert; [done | lia].
    + pose proof (deref_alloc h ∅) as Hd.
      pose proof (tokenInv_alloc m h cardId) as Ha.
      unfold alloc in Hd, Ha |- *. cbn [fst snd] in Hd, Ha |- *.
      rewrite Hd.
      apply Ha; [done | done |].
      apply positiveObject_insert; [| unfold maxCount in *; cbn; lia].
      intros k v. by rewrite lookup_empty.
Qed.

Lemma tokenInv_clear (m : TokenManager) (h : Heap) (t : gmap string loc) :
  tokenInv m h → (∀ c l, t !! c = Some l → tokens m !! c = Some l) →
  tokenInv (set_tokens t m) h.
Proof.
  intros (Hs & Hwf & Hinj & Hpos) Hsub.
  split; [done |]. split; [| split]; cbn.
  - intros c l H'%Hsub. by apply (Hwf c).
  - intros c c' l H1%Hsub H2%Hsub. by apply (Hinj c c' l).
  - intros c l H'%Hsub. by apply (Hpos c).
Qed.

Lemma tokenInv_step (s : TokenManager * Heap) (op : Op) :
  positiveAdd op → tokenInv s.1 s.2 → tokenInv (step s op).1 (step s op).2.
Proof.
  destruct s as [m h]. intros Hop Hi. cbn [fst snd] in Hi.
  destruct op as [c t n | c t n | c t n | c |]; cbn [step positiveAdd] in *.
  - pose proof (tokenInv_addToken m h c t n Hop Hi) as H.
    by destruct (addToken c t n m h) as [[r m'] h'].
  - pose proof (tokenInv_removeToken m h c t n Hi) as H.
    by destruct (removeToken c t n m h) as [[r m'] h'].
  - pose proof (tokenInv_setTokenCount m h c t n Hi) as H.
    by destruct (setTokenCount c t n m h) as [m' h'].
  - apply tokenInv_clear; [done |].
    intros c' l. rewrite lookup_delete. by case_decide.
  - apply tokenInv_clear; [done |]. intros c' l. by rewrite lookup_empty.
Qed.

(** X22: every sequence of mutating operations in which [addToken] is
    only called with counts of at least 1, on a new manager whose stack
    limit is at least 1, leaves each card of the outer map with a kind of
    positive count. *)
Lemma positive_adds_keep_cards_positive (cfg : TokenManagerConfig)
    (ops : list Op) (cardId : string) :
  1 ≤ stackLimit cfg → Forall positiveAdd ops →
  let s := run ops (constructor cfg, emptyHeap) in
  is_Some (tokens s.1 !! cardId) → cardHasPositive cardId s.1 s.2.
Proof.
  intros Hs Hops.
  assert (Hi : tokenInv (run ops (constructor cfg, emptyHeap)).1
                        (run ops (constructor cfg, emptyHeap)).2).
  { assert (H0 : tokenInv (constructor cfg, emptyHeap).1
                          (constructor cfg, emptyHeap).2).
    { split; [done |]. cbn.
      split; [| split]; intros c; intros; by rewrite lookup_empty in *. }
    revert H0. generalize (constructor cfg, emptyHeap).
    induction Hops as [| op ops Hop _ IH]; intros s H0; [done |].
    cbn. apply IH. by apply tokenInv_step. }
  intros s [l Hl]. subst s. destruct Hi as (_ & _ & _ & Hpos).
  destruct (Hpos _ _ Hl) as [Hne Hp].
  destruct (map_choose _ Hne) as (tokenId & v & Hv).
  exists tokenId. unfold getTokenCount. rewrite Hl, Hv. cbn.
  by apply (Hp tokenId).
Qed.

(** C2, as the claim states it, fails: a card holds one stun token; a
    further [addToken] of 1 is capped at 1, and the [removeToken] of 1
    that follows leaves 0, not 1. *)
Lemma addToken_removeToken_capped :
  let '(_, m, h) :=
    addToken "c1" status_stun 1 (constructor DEFAULT_CONFIG) emptyHeap in
  let '(_, m1, h1) := addToken "c1" status_stun 1 m h in
  let '(_, m2, h2) := removeToken "c1" status_stun 1 m1 h1 in
  getTokenCount "c1" status_stun m h = 1
  ∧ getTokenCount "c1" status_stun m1 h1 = 1
  ∧ getTokenCount "c1" status_stun m2 h2 = 0
  ∧ getTokenCount "c1" status_stun m2 h2 ≠ getTokenCount "c1" status_stun m h.
Proof. by vm_compute. Qed.

(** C2, amended: for every card, kind and count of at least 1, when the
    count before is 0, or is not negative and the addition stays within
    the capacity of the kind (count before plus count at most the stack
    limit, or 1 for a kind that does not stack), [addToken] followed by
    [removeToken] of the same count leaves [getTokenCount] at its value
    before; and when the count before is 0 and the card has no entry of
    another kind, [hasTokens] is false afterwards. *)
Theorem addToken_removeToken_roundtrip (m : TokenManager) (h : Heap)
    (cardId : string) (tokenId : TokenId) (count : Z) :
  1 ≤ count →
  let before := getTokenCount cardId tokenId m h in
  before = 0 ∨ (0 ≤ before ∧ before + count ≤ maxCount m tokenId) →
  let '(_, m1, h1) := addToken cardId tokenId count m h in
  let '(_, m2, h2) := removeToken cardId tokenId count m1 h1 in
  getTokenCount cardId tokenId m2 h2 = before
  ∧ (before = 0 →
     (∀ k, k ≠ tokenId → getTokensOnCard cardId m h !! k = None) →
     hasTokens cardId m2 h2 = false).
Proof.
  intros Hc before Hb.
  destruct (tokens m !! cardId) as [l |] eqn:Hl.
  - pose proof (add_remove_at m h cardId tokenId count l Hl Hc) as H.
    unfold before, getTokenCount, getTokensOnCard in *. rewrite Hl in *.
    by apply H.
  - (* the card is new: [addToken] first allocates its token object *)
    set (l := (alloc ∅ h).1). set (h0 := (alloc ∅ h).2).
    set (m0 := set_tokens (<[cardId := l]> (tokens m)) m).
    assert (Hl0 : tokens m0 !! cardId = Some l) by apply lookup_insert_eq.
    assert (Hd0 : deref h0 l = ∅) by apply deref_alloc.
    assert (Hadd : addToken cardId tokenId count m h
                   = addToken cardId tokenId count m0 h0).
    { unfold addToken. rewrite Hl, Hl0. reflexivity. }
    rewrite Hadd.
    pose proof (add_remove_at m0 h0 cardId tokenId count l Hl0 Hc) as H.
    rewrite Hd0, lookup_empty in H. cbn [default] in H.
    assert (Hbefore : before = 0).
    { unfold before, getTokenCount. by rewrite Hl. }
    specialize (H (or_introl eq_refl)).
    destruct (addToken cardId tokenId count m0 h0) as [[r1 m1] h1].
    destruct (removeToken cardId tokenId count m1 h1) as [[r2 m2] h2].
    destruct H as [H1 H2]. rewrite Hbefore. split; [done |].
    intros _ _. apply H2; [done |]. intros k _. apply lookup_empty.
Qed.

(** Three shield counters put on a new card and taken off again. *)
Lemma addToken_removeToken_roundtrip_witness :
  let '(_, m1, h1) :=
    addToken "c1" shield_counter 3 (constructor DEFAULT_CONFIG) emptyHeap in
  let '(_, m2, h2) := removeToken "c1" shield_counter 3 m1 h1 in
  getTokenCount "c1" shield_counter m2 h2 = 0
  ∧ hasTokens "c1" m2 h2 = false.
Proof.
  pose proof (addToken_removeToken_roundtrip (constructor DEFAULT_CONFIG)
                emptyHeap "c1" shield_counter 3) as H.
  cbn zeta in H.
  assert (H1 : 1 ≤ 3) by lia.
  specialize (H H1 (or_introl eq_refl)).
  destruct (addToken "c1" shield_counter 3 (constructor DEFAULT_CONFIG)
              emptyHeap) as [[r1 m1] h1].
  destruct (removeToken "c1" shield_counter 3 m1 h1) as [[r2 m2] h2].
  destruct H as [Hcount Hhas]. split; [exact Hcount |].
  apply Hhas; [reflexivity |]. intros k _. reflexivity.
Defined.

(** C4, evaluated where it fails: on a new manager with the default
    configuration, [addToken] with count 0 creates the entry of the card
    and stores the count 0 in it.  The card is then in the outer map, so
    that [hasTokens] holds and [getCardsWithTokens] lists it, while no kind
    on it has a positive count. *)
Lemma addToken_zero_count_keeps_entry :
  let '(m, h) :=
    run [OpAddToken "c1" damage_counter 0] (constructor DEFAULT_CONFIG, emptyHeap) in
  is_Some (tokens m !! "c1")
  ∧ getTokensOnCard "c1" m h = {[ damage_counter := 0 ]}
  ∧ hasTokens "c1" m h = true
  ∧ getCardsWithTokens m = ["c1"]
  ∧ getTotalTokenCount m h = 0
  ∧ ¬ cardHasPositive "c1" m h.
Proof.
  vm_compute. split; [by eexists |]. do 4 (split; [reflexivity |]).
  intros [[] H]; discriminate H.
Qed.

(** C9, evaluated where it fails: [serialize] copies the outer map only.
    The map it returns holds the manager's own token objects, so that an
    [addToken] made after the call shows through the returned map, and a
    write through the returned map changes what [getTokenCount] answers. *)
Lemma serialize_shares_token_objects :
  let '(_, m, h) :=
    addToken "c1" damage_counter 1 (constructor DEFAULT_CONFIG) emptyHeap in
  let st := serialize m in
  snapshotCount st "c1" damage_counter h = Some 1
  ∧ (let '(_, _, h') := addToken "c1" damage_counter 1 m h in
     snapshotCount st "c1" damage_counter h' = Some 2)
  ∧ getTokenCount "c1" damage_counter m h = 1
  ∧ getTokenCount "c1" damage_counter m
      (snapshotWrite st "c1" damage_counter 50 h) = 50.
Proof. by vm_compute. Qed.

End TokenProperties.

(** ** Serialization *)

(** C8: [restore] of the [serialize]d state on a newly constructed manager.
    For each manager, whatever the arguments of the new instance, every
    getter that reads the state answers as on the original: turn number,
    phase, active player, action flags, state; life of every player,
    presence of a player, the player ids and life totals; token counts,
    tokens on a card, [hasTokens], [hasToken], cards with tokens and the
    total token count.  When the new instance is constructed with the
    players and configuration of the original, the getters that also read
    those ([getInactivePlayerId], [isAlive], [isDead], [getStartingLife])
    answer the same too. *)
Theorem serialize_restore_roundtrip :
  (∀ (m : Turn.TurnManager) (player1Id player2Id : string)
     (cfg : Turn.TurnManagerConfig),
     let m' := Turn.restore (Turn.serialize m)
                 (Turn.constructor player1Id player2Id cfg) in
     Turn.getTurnNumber m' = Turn.getTurnNumber m
     ∧ Turn.getCurrentPhase m' = Turn.getCurrentPhase m
     ∧ Turn.getActivePlayerId m' = Turn.getActivePlayerId m
     ∧ Turn.getPhaseActions m' = Turn.getPhaseActions m
     ∧ Turn.getState m' = Turn.getState m
     ∧ (∀ action, Turn.canPerformAction m' action = Turn.canPerformAction m action)
     ∧ (∀ playerId, Turn.isPlayerTurn m' playerId = Turn.isPlayerTurn m playerId)
     ∧ Turn.getAllPhases m' = Turn.getAllPhases m
     ∧ Turn.serialize m' = Turn.serialize m)
  ∧ (∀ m : Turn.TurnManager,
       let m' := Turn.restore (Turn.serialize m)
                   (Turn.constructor (Turn.playerIds m).1 (Turn.playerIds m).2
                      (Turn.config m)) in
       Turn.getInactivePlayerId m' = Turn.getInactivePlayerId m)
  ∧ (∀ (m : Life.LifeManager) (cfg : Life.LifeManagerConfig),
       let m' := (Life.restore (Life.serialize m) (Life.constructor cfg)).1 in
       (∀ playerId, (Life.getLife playerId m').2 = (Life.getLife playerId m).2)
       ∧ (∀ playerId, Life.hasPlayer playerId m' = Life.hasPlayer playerId m)
       ∧ Life.getPlayerIds m' = Life.getPlayerIds m
       ∧ Life.getAllLifeTotals m' = Life.getAllLifeTotals m
       ∧ Life.serialize m' = Life.serialize m)
  ∧ (∀ m : Life.LifeManager,
       let m' := (Life.restore (Life.serialize m)
                    (Life.constructor (Life.config m))).1 in
       (∀ playerId, (Life.isAlive playerId m').2 = (Life.isAlive playerId m).2)
       ∧ (∀ playerId, (Life.isDead playerId m').2 = (Life.isDead playerId m).2)
       ∧ Life.getStartingLife m' = Life.getStartingLife m)
  ∧ (∀ (m : Token.TokenManager) (h : Token.Heap) (cfg : Token.TokenManagerConfig),
       let m' := Token.restore (Token.serialize m) (Token.constructor cfg) in
       (∀ cardId tokenId,
          Token.getTokenCount cardId tokenId m' h
          = Token.getTokenCount cardId tokenId m h)
       ∧ (∀ cardId, Token.getTokensOnCard cardId m' h
                    = Token.getTokensOnCard cardId m h)
       ∧ (∀ cardId, Token.hasTokens cardId m' h = Token.hasTokens cardId m h)
       ∧ (∀ cardId tokenId,
            Token.hasToken cardId tokenId m' h = Token.hasToken cardId tokenId m h)
       ∧ Token.getCardsWithTokens m' = Token.getCardsWithTokens m
       ∧ Token.getTotalTokenCount m' h = Token.getTotalTokenCount m h
       ∧ Token.serialize m' = Token.serialize m).
Proof.
  split; [| split; [| split; [| split]]].
  - intros m p1 p2 cfg m'. by destruct m as [[] ? ? ? ? ?].
  - intros m m'. destruct m as [[] [] ? ? ? ?]. reflexivity.
  - intros m cfg m'. repeat split.
    intros playerId. unfold Life.getLife, Life.bind, Life.read. cbn.
    unfold Life.serialize. by destruct (Life.lifeTotals m !! playerId).
  - intros m m'.
    assert (Halive : ∀ playerId,
              (Life.isAlive playerId m').2 = (Life.isAlive playerId m).2).
    { intros playerId. unfold Life.isAlive, Life.getLife, Life.bind, Life.read.
      cbn. unfold Life.serialize. by destruct (Life.lifeTotals m !! playerId). }
    repeat split; [exact Halive |].
    intros playerId. specialize (Halive playerId).
    unfold Life.isDead, Life.bind in *.
    destruct (Life.isAlive playerId m') as [? [|]],
             (Life.isAlive playerId m) as [? [|]];
      cbn in *; congruence.
  - intros m h cfg m'. repeat split.
Qed.

(** * Further properties of the managers *)

(** ** Phases and turns *)

Section TurnFurther.
Import Turn.

(** X1: [getNextPhase] is a cyclic successor of period 8: it yields start
    exactly on end, never yields its argument, sends different phases to
    different phases, gets back to a phase after eight steps and after no
    smaller positive number of steps. *)
Theorem getNextPhase_cycle (p : TurnPhase) :
  (getNextPhase p = start ↔ p = end_)
  ∧ getNextPhase p ≠ p
  ∧ (∀ q, getNextPhase p = getNextPhase q → p = q)
  ∧ Nat.iter 8 getNextPhase p = p
  ∧ Forall (λ k, Nat.iter k getNextPhase p ≠ p) (seq 1 7).
Proof.
  split; [| split; [| split; [| split]]].
  - destruct p; split; (reflexivity || discriminate).
  - destruct p; discriminate.
  - intros q. destruct p, q; (reflexivity || discriminate).
  - by destruct p.
  - destruct p;
      repeat (apply Forall_cons_2; [vm_compute; discriminate |]);
      apply Forall_nil_2.
Qed.

(** X2: [isValidPhaseTransition] accepts exactly the step [getNextPhase]
    takes: from a phase to the phase after it, and from end to start. *)
Theorem isValidPhaseTransition_iff_next (from to : TurnPhase) :
  isValidPhaseTransition from to = bool_decide (to = getNextPhase from).
Proof. destruct from, to; reflexivity. Qed.

Lemma endTurn_state (m : TurnManager) :
  state (endTurn m).1
  = {| turnNumber := turnNumber (state m) + 1;
       phase := start;
       activePlayerId := getInactivePlayerId m;
       phaseActionsRemaining := DEFAULT_PHASE_ACTIONS start |}
  ∧ playerIds (endTurn m).1 = playerIds m
  ∧ config (endTurn m).1 = config m.
Proof.
  unfold endTurn, getInactivePlayerId. cbn. repeat split.
  f_equal. destruct (decide (activePlayerId (state m) = (playerIds m).1)),
    (decide ((playerIds m).1 = activePlayerId (state m))); congruence.
Qed.



Lemma advance_add (a b : nat) (m : TurnManager) :
  advance (a + b) m = advance a (advance b m).
Proof. unfold advance. apply Nat.iter_add. Qed.

Lemma advance_S (n : nat) (m : TurnManager) :
  advance (S n) m = (nextPhase (advance n m)).1.
Proof. reflexivity. Qed.

(** Up to seven calls from the start phase stay within the turn. *)
Lemma advance_within_turn (r : nat) (m : TurnManager) :
  phase (state m) = start → (r < 8)%nat →
  TURN_PHASES !! r = Some (phase (state (advance r m)))
  ∧ turnNumber (state (advance r m)) = turnNumber (state m)
  ∧ activePlayerId (state (advance r m)) = activePlayerId (state m).
Proof.
  destruct m as [[tn ph a pa] [i1 i2] cfg tl pl d]. cbn. intros -> Hr.
  do 8 (destruct r as [| r]; [by vm_compute |]). lia.
Qed.

Lemma phaseDeliveredTo_app (d1 d2 : list Delivery) :
  phaseDeliveredTo (d1 ++ d2) = phaseDeliveredTo d1 ++ phaseDeliveredTo d2.
Proof. apply omap_app. Qed.

Lemma turnDeliveredTo_app (d1 d2 : list Delivery) :
  turnDeliveredTo (d1 ++ d2) = turnDeliveredTo d1 ++ turnDeliveredTo d2.
Proof. apply omap_app. Qed.

Lemma deliveredTo_phase_batch (e : PhaseChangeEvent) (l : list CallbackId) :
  phaseDeliveredTo (map (λ cb, PhaseDelivered cb e) l) = l
  ∧ turnDeliveredTo (map (λ cb, PhaseDelivered cb e) l) = [].
Proof.
  unfold phaseDeliveredTo, turnDeliveredTo.
  induction l as [| c l [IH1 IH2]]; [done |]. cbn. by rewrite IH1, IH2.
Qed.

Lemma deliveredTo_turn_batch (e : TurnChangeEvent) (l : list CallbackId) :
  turnDeliveredTo (map (λ cb, TurnDelivered cb e) l) = l
  ∧ phaseDeliveredTo (map (λ cb, TurnDelivered cb e) l) = [].
Proof.
  unfold phaseDeliveredTo, turnDeliveredTo.
  induction l as [| c l [IH1 IH2]]; [done |]. cbn. by rewrite IH1, IH2.
Qed.

(** Who is called by one [nextPhase]: the turn listeners in the end phase,
    the phase listeners in every other phase. *)
Lemma nextPhase_deliveredTo (m : TurnManager) :
  phaseDeliveredTo (delivered (nextPhase m).1)
  = phaseDeliveredTo (delivered m)
    ++ (if decide (phase (state m) = end_) then [] else phaseListeners m)
  ∧ turnDeliveredTo (delivered (nextPhase m).1)
    = turnDeliveredTo (delivered m)
      ++ (if decide (phase (state m) = end_) then turnListeners m else [])
  ∧ turnListeners (nextPhase m).1 = turnListeners m
  ∧ phaseListeners (nextPhase m).1 = phaseListeners m
  ∧ playerIds (nextPhase m).1 = playerIds m
  ∧ config (nextPhase m).1 = config m.
Proof.
  destruct (decide (phase (state m) = end_)) as [He | Hne].
  - rewrite (nextPhase_end m He). cbn.
    rewrite phaseDeliveredTo_app, turnDeliveredTo_app.
    destruct (deliveredTo_turn_batch
                {| previousTurn := turnNumber (state m);
                   newTurn := turnNumber (state m) + 1;
                   tc_activePlayerId :=
                     if decide (activePlayerId (state m) = (playerIds m).1)
                     then (playerIds m).2 else (playerIds m).1 |}
                (turnListeners m)) as [-> ->].
    done.
  - rewrite (nextPhase_not_end m Hne). cbn.
    rewrite phaseDeliveredTo_app, turnDeliveredTo_app.
    destruct (deliveredTo_phase_batch
                {| previousPhase := phase (state m);
                   newPhase := getNextPhase (phase (state m));
                   pc_turnNumber := turnNumber (state m) |}
                (phaseListeners m)) as [-> ->].
    by rewrite app_nil_r.
Qed.

Lemma concat_replicate_snoc (n : nat) (l : list CallbackId) :
  concat (replicate n l) ++ l = concat (replicate (S n) l).
Proof.
  induction n as [| n IH]; cbn; [by rewrite app_nil_r |].
  cbn in IH. by rewrite <- app_assoc, IH.
Qed.

(** Who is called during the first [r] calls of a turn. *)
Lemma advance_deliveredTo (r : nat) (m : TurnManager) :
  phase (state m) = start → (r < 8)%nat →
  phaseDeliveredTo (delivered (advance r m))
  = phaseDeliveredTo (delivered m) ++ concat (replicate r (phaseListeners m))
  ∧ turnDeliveredTo (delivered (advance r m)) = turnDeliveredTo (delivered m)
  ∧ turnListeners (advance r m) = turnListeners m
  ∧ phaseListeners (advance r m) = phaseListeners m
  ∧ playerIds (advance r m) = playerIds m
  ∧ config (advance r m) = config m.
Proof.
  intros Hs. induction r as [| r IH]; intros Hr.
  - cbn. by rewrite app_nil_r.
  - destruct IH as (Hp & Ht & Htl & Hpl & Hids & Hcfg); [lia |].
    destruct (advance_within_turn r m Hs) as (Hph & _); [lia |].
    change (advance (S r) m) with (nextPhase (advance r m)).1.
    destruct (nextPhase_deliveredTo (advance r m)) as (Hp' & Ht' & -> & -> & -> & ->).
    rewrite Hp', Ht', Hp, Ht, Htl, Hpl.
    assert (Hne : phase (state (advance r m)) ≠ end_).
    { intros He. rewrite He in Hph.
      do 7 (destruct r as [| r]; [discriminate Hph |]). lia. }
    rewrite !decide_False by exact Hne.
    rewrite app_nil_r, <- app_assoc, concat_replicate_snoc. done.
Qed.

Lemma advance_8_from_start (m : TurnManager) :
  phase (state m) = start →
  state (advance 8 m) = state (endTurn m).1
  ∧ playerIds (advance 8 m) = playerIds m
  ∧ config (advance 8 m) = config m
  ∧ turnListeners (advance 8 m) = turnListeners m
  ∧ phaseListeners (advance 8 m) = phaseListeners m
  ∧ turnDeliveredTo (delivered (advance 8 m))
    = turnDeliveredTo (delivered m) ++ turnListeners m
  ∧ phaseDeliveredTo (delivered (advance 8 m))
    = phaseDeliveredTo (delivered m)
      ++ concat (replicate 7 (phaseListeners m)).
Proof.
  intros Hs.
  destruct (advance_deliveredTo 7 m Hs) as (Hp & Ht & Htl & Hpl & Hids & Hcfg);
    [lia |].
  destruct (advance_within_turn 7 m Hs) as (Hph & Htn & Hact); [lia |].
  change (TURN_PHASES !! 7%nat) with (Some end_) in Hph.
  assert (He : phase (state (advance 7 m)) = end_) by congruence.
  clear Hph. rename He into Hph.
  rewrite (advance_S 7 m).
  destruct (nextPhase_deliveredTo (advance 7 m)) as (Hp' & Ht' & -> & -> & -> & ->).
  rewrite Hp', Ht', Hp, Ht, Htl, Hpl, Hids, Hcfg.
  rewrite !decide_True by done. rewrite app_nil_r.
  split; [| done].
  rewrite (nextPhase_end _ Hph). cbn [fst].
  destruct (endTurn_state (advance 7 m)) as (-> & _).
  destruct (endTurn_state m) as (-> & _).
  unfold getInactivePlayerId. by rewrite Htn, Hact, Hids.
Qed.

(** X4: eight calls of [nextPhase] from the start phase leave the turn
    state of one [endTurn]: the next turn number, the other player, the
    start phase with its default flags; players, configuration and
    listeners are kept, every phase listener has been called seven times
    and every turn listener once. *)
Theorem eight_phases_are_one_turn (m : TurnManager) :
  phase (state m) = start →
  state (advance 8 m) = state (endTurn m).1
  ∧ playerIds (advance 8 m) = playerIds m
  ∧ config (advance 8 m) = config m
  ∧ turnListeners (advance 8 m) = turnListeners m
  ∧ phaseListeners (advance 8 m) = phaseListeners m
  ∧ turnDeliveredTo (delivered (advance 8 m))
    = turnDeliveredTo (delivered m) ++ turnListeners m
  ∧ phaseDeliveredTo (delivered (advance 8 m))
    = phaseDeliveredTo (delivered m)
      ++ concat (replicate 7 (phaseListeners m)).
Proof. apply advance_8_from_start. Qed.

(** One full turn of a two-player game with a listener of each kind. *)
Lemma eight_phases_are_one_turn_witness :
  let m := addPhaseListener 1%nat
             (addTurnListener 0%nat (constructor "p1" "p2" DEFAULT_CONFIG)) in
  state (advance 8 m) = state (endTurn m).1
  ∧ turnDeliveredTo (delivered (advance 8 m)) = [0%nat]
  ∧ phaseDeliveredTo (delivered (advance 8 m))
    = [1; 1; 1; 1; 1; 1; 1]%nat.
Proof.
  intros m.
  destruct (eight_phases_are_one_turn m eq_refl) as (Hs & _ & _ & _ & _ & Ht & Hp).
  split; [exact Hs |]. split; [exact Ht | exact Hp].
Defined.

(** Whole turns played from a new manager. *)
Lemma advance_whole_turns (player1Id player2Id : string)
    (cfg : TurnManagerConfig) (q : nat) :
  let m := advance (8 * q) (constructor player1Id player2Id cfg) in
  phase (state m) = start
  ∧ turnNumber (state m) = 1 + Z.of_nat q
  ∧ activePlayerId (state m) = (if Nat.even q then player1Id else player2Id)
  ∧ playerIds m = (player1Id, player2Id).
Proof.
  induction q as [| q IH]; [done |].
  cbn zeta in *. destruct IH as (Hph & Htn & Hact & Hids).
  replace (8 * S q)%nat with (8 + 8 * q)%nat by lia.
  rewrite advance_add.
  destruct (advance_8_from_start _ Hph) as (-> & -> & _).
  destruct (endTurn_state (advance (8 * q) (constructor player1Id player2Id cfg)))
    as (-> & _).
  cbn [phase turnNumber activePlayerId]. unfold getInactivePlayerId.
  rewrite Htn, Hact, Hids. cbn [fst snd].
  rewrite Nat.even_succ, <- Nat.negb_even.
  split; [done |]. split; [lia |]. split; [| done].
  destruct (Nat.even q); cbn [negb]; case_decide; congruence.
Qed.

(** X5: after [n] calls of [nextPhase] on a new manager, the turn number
    is 1 plus the number of whole groups of eight calls, the phase is the
    one at position [n mod 8] of [TURN_PHASES], and the active player is
    the first player in odd-numbered turns and the second one in
    even-numbered turns. *)
Theorem advance_from_constructor (player1Id player2Id : string)
    (cfg : TurnManagerConfig) (n : nat) :
  let m := advance n (constructor player1Id player2Id cfg) in
  getTurnNumber m = 1 + Z.of_nat (n / 8)
  ∧ TURN_PHASES !! (n mod 8)%nat = Some (getCurrentPhase m)
  ∧ getActivePlayerId m
    = (if Nat.even (n / 8) then player1Id else player2Id).
Proof.
  cbn zeta.
  assert (E : advance n (constructor player1Id player2Id cfg)
              = advance (n mod 8)
                  (advance (8 * (n / 8)) (constructor player1Id player2Id cfg))).
  { rewrite <- advance_add. f_equal. pose proof (Nat.div_mod_eq n 8). lia. }
  rewrite E.
  destruct (advance_whole_turns player1Id player2Id cfg (n / 8))
    as (Hph & Htn & Hact & _).
  destruct (advance_within_turn (n mod 8) _ Hph) as (H1 & H2 & H3).
  { apply Nat.mod_upper_bound. lia. }
  unfold getTurnNumber, getCurrentPhase, getActivePlayerId.
  by rewrite H2, H3, Htn, Hact.
Qed.

Lemma getAction_setAction (a : PhaseActions) (k k' : ActionKey) (b : bool) :
  getAction (setAction a k b) k' = if decide (k = k') then b else getAction a k'.
Proof. destruct k, k'; reflexivity. Qed.

Lemma useAction_available (m : TurnManager) (action : ActionKey) :
  canPerformAction m action = true →
  useAction action m
  = (with_state m
       {| turnNumber := turnNumber (state m);
          phase := phase (state m);
          activePlayerId := activePlayerId (state m);
          phaseActionsRemaining :=
            setAction (phaseActionsRemaining (state m)) action false |},
     Ok tt).
Proof. unfold useAction, canPerformAction. by intros ->. Qed.

Lemma useAction_unavailable (m : TurnManager) (action : ActionKey) :
  canPerformAction m action = false →
  useAction action m
  = (m, Throw (IllegalAction
                 ("Action " +:+ ActionKey_name action
                  +:+ " is not available in phase "
                  +:+ TurnPhase_name (phase (state m))))).
Proof. unfold useAction, canPerformAction. by intros ->. Qed.

(** X6: an action that is available can be used once.  [useAction]
    succeeds, clears that flag and no other, keeps phase, turn number and
    active player and calls no listener; used again, it throws the
    illegal-action error and leaves the manager as it is. *)
Theorem useAction_consumes_once (m : TurnManager) (action : ActionKey) :
  canPerformAction m action = true →
  let m' := (useAction action m).1 in
  (useAction action m).2 = Ok tt
  ∧ canPerformAction m' action = false
  ∧ (∀ other, other ≠ action →
       canPerformAction m' other = canPerformAction m other)
  ∧ getCurrentPhase m' = getCurrentPhase m
  ∧ getTurnNumber m' = getTurnNumber m
  ∧ getActivePlayerId m' = getActivePlayerId m
  ∧ delivered m' = delivered m
  ∧ useAction action m'
    = (m', Throw (IllegalAction
                    ("Action " +:+ ActionKey_name action
                     +:+ " is not available in phase "
                     +:+ TurnPhase_name (getCurrentPhase m)))).
Proof.
  intros Hav m'. subst m'. rewrite (useAction_available m action Hav).
  cbn [fst snd].
  assert (Hoff : canPerformAction
                   (with_state m
                      {| turnNumber := turnNumber (state m);
                         phase := phase (state m);
                         activePlayerId := activePlayerId (state m);
                         phaseActionsRemaining :=
                           setAction (phaseActionsRemaining (state m))
                             action false |}) action = false).
  { unfold canPerformAction. cbn. rewrite getAction_setAction.
    by rewrite decide_True. }
  split; [done |]. split; [exact Hoff |]. split.
  { intros other Hne. unfold canPerformAction. cbn.
    rewrite getAction_setAction. by rewrite decide_False. }
  do 4 (split; [done |]).
  by rewrite (useAction_unavailable _ _ Hoff).
Qed.

(** Attacking in the clash phase: the second attack is refused. *)
Lemma useAction_consumes_once_witness :
  let m := (setPhase clash (constructor "p1" "p2" DEFAULT_CONFIG)).1 in
  let m' := (useAction KCanAttack m).1 in
  canPerformAction m' KCanAttack = false
  ∧ canPerformAction m' KCanActivateAbilities = true
  ∧ useAction KCanAttack m'
    = (m', Throw (IllegalAction
                    "Action canAttack is not available in phase clash")).
Proof.
  intros m m'.
  destruct (useAction_consumes_once m KCanAttack eq_refl)
    as (_ & Hoff & Hother & _ & _ & _ & _ & Hagain).
  split; [exact Hoff |]. split; [| exact Hagain].
  assert (Hne : KCanActivateAbilities ≠ KCanAttack) by discriminate.
  exact (eq_trans (Hother KCanActivateAbilities Hne) eq_refl).
Defined.

(** What each operation does to the remaining flags. *)
Lemma flagsWithinDefaults_step (m : TurnManager) (op : Op) :
  flagsWithinDefaults m → flagsWithinDefaults (step m op).
Proof.
  intros Hm. destruct op as [| p | | action | cb | cb | cb | cb |];
    cbn [step]; try exact Hm.
  - destruct (decide (phase (state m) = end_)) as [He | Hne].
    + rewrite (nextPhase_end m He). intros k. cbn. by destruct k.
    + rewrite (nextPhase_not_end m Hne). intros k.
      unfold canPerformAction. cbn.
      destruct (_ && _); [| done]. by destruct k.
  - unfold setPhase. destruct (negb _); [exact Hm |]. by intros k.
  - intros k. cbn. by destruct k.
  - unfold useAction. destruct (negb _); [exact Hm |].
    intros k. unfold canPerformAction. cbn.
    rewrite getAction_setAction. case_decide; [done | apply Hm].
Qed.

(** X7: in every state reached from a new manager through [nextPhase],
    [setPhase], [endTurn], [useAction] and the listener methods, an action
    flag is set only if the current phase grants it: drawing only in the
    draw phase, playing a resource only in the resource phase, attacking
    only in the clash phase, playing cards only in main and main2. *)
Theorem flags_only_in_their_phases (player1Id player2Id : string)
    (cfg : TurnManagerConfig) (ops : list Op) :
  let m := run ops (constructor player1Id player2Id cfg) in
  flagsWithinDefaults m
  ∧ (canPerformAction m KCanDraw = true → getCurrentPhase m = draw)
  ∧ (canPerformAction m KCanPlayResource = true → getCurrentPhase m = resource)
  ∧ (canPerformAction m KCanAttack = true → getCurrentPhase m = clash)
  ∧ (canPerformAction m KCanPlayCards = true →
     getCurrentPhase m = main ∨ getCurrentPhase m = main2)
  ∧ (canPerformAction m KCanActivateAbilities = true →
     getCurrentPhase m = main ∨ getCurrentPhase m = clash
     ∨ getCurrentPhase m = main2).
Proof.
  intros m.
  assert (Hm : flagsWithinDefaults m).
  { subst m. unfold run.
    assert (H0 : flagsWithinDefaults (constructor player1Id player2Id cfg))
      by (by intros k).
    revert H0. generalize (constructor player1Id player2Id cfg).
    induction ops as [| op ops IH]; intros m H0; [done |].
    cbn. apply IH. by apply flagsWithinDefaults_step. }
  split; [exact Hm |].
  unfold getCurrentPhase.
  repeat split; intros Hk; specialize (Hm _ Hk);
    destruct (phase (state m)); cbn in Hm; try discriminate; auto.
Qed.

Lemma setPhase_eq (p : TurnPhase) (m : TurnManager) :
  let event := {| previousPhase := phase (state m); newPhase := p;
                  pc_turnNumber := turnNumber (state m) |} in
  setPhase p m
  = (notifyPhaseListeners
       (with_state m {| turnNumber := turnNumber (state m);
                        phase := p;
                        activePlayerId := activePlayerId (state m);
                        phaseActionsRemaining := DEFAULT_PHASE_ACTIONS p |})
       event, Ok tt).
Proof.
  assert (Hin : bool_decide (p ∈ TURN_PHASES) = true) by (by destruct p).
  unfold setPhase. by rewrite Hin.
Qed.

(** X8: [TURN_PHASES] holds every phase, so [setPhase] never throws: it
    sets the phase it is given, installs the default flags of that phase,
    keeps turn number and active player, and calls every phase listener
    and no turn listener. *)
Theorem setPhase_never_throws (p : TurnPhase) (m : TurnManager) :
  (setPhase p m).2 = Ok tt
  ∧ getCurrentPhase (setPhase p m).1 = p
  ∧ getPhaseActions (setPhase p m).1 = DEFAULT_PHASE_ACTIONS p
  ∧ getTurnNumber (setPhase p m).1 = getTurnNumber m
  ∧ getActivePlayerId (setPhase p m).1 = getActivePlayerId m
  ∧ delivered (setPhase p m).1
    = delivered m
      ++ map (λ cb, PhaseDelivered cb
                      {| previousPhase := getCurrentPhase m; newPhase := p;
                         pc_turnNumber := getTurnNumber m |})
             (phaseListeners m).
Proof. by rewrite (setPhase_eq p m). Qed.

Lemma step_phase_deliveries (m : TurnManager) (op : Op) :
  phaseDeliveredTo (delivered (step m op)) = phaseDeliveredTo (delivered m)
  ∨ phaseDeliveredTo (delivered (step m op))
    = phaseDeliveredTo (delivered m) ++ phaseListeners m.
Proof.
  destruct op as [| p | | action | cb | cb | cb | cb |]; cbn [step];
    try (by left).
  - destruct (nextPhase_deliveredTo m) as (-> & _).
    case_decide; [left; apply app_nil_r | by right].
  - rewrite (setPhase_eq p m). cbn.
    right. rewrite phaseDeliveredTo_app. f_equal.
    apply deliveredTo_phase_batch.
  - left. unfold endTurn. cbn. rewrite phaseDeliveredTo_app.
    destruct (deliveredTo_turn_batch
                {| previousTurn := turnNumber (state m);
                   newTurn := turnNumber (state m) + 1;
                   tc_activePlayerId :=
                     if decide (activePlayerId (state m) = (playerIds m).1)
                     then (playerIds m).2 else (playerIds m).1 |}
                (turnListeners m)) as [_ ->].
    apply app_nil_r.
  - left. unfold useAction. by destruct (negb _).
Qed.

Lemma step_phaseListeners (m : TurnManager) (op : Op) (cb : CallbackId) :
  op ≠ OpAddPhaseListener cb → cb ∉ phaseListeners m →
  cb ∉ phaseListeners (step m op).
Proof.
  intros Hop Hcb.
  destruct op as [| p | | action | c | c | c | c |]; cbn [step]; try done.
  - by destruct (nextPhase_deliveredTo m) as (_ & _ & _ & -> & _).
  - unfold setPhase. by destruct (negb _).
  - unfold useAction. by destruct (negb _).
  - cbn. unfold set_add. case_decide; [done |].
    intros [Hin | Hin%list_elem_of_singleton]%elem_of_app; [done | congruence].
  - cbn. unfold set_delete. by intros [_ Hin]%list_elem_of_filter.
  - cbn. apply not_elem_of_nil.
Qed.

Lemma filter_eq_not_elem_of (cb : CallbackId) (l : list CallbackId) :
  cb ∉ l → filter (λ c, c = cb) l = [].
Proof.
  induction l as [| c l IH]; [done |].
  intros [Hne Hl]%not_elem_of_cons.
  rewrite filter_cons_False; [by apply IH | congruence].
Qed.

Lemma removed_listener_run (cb : CallbackId) (ops : list Op) (m : TurnManager) :
  Forall (λ op, op ≠ OpAddPhaseListener cb) ops →
  cb ∉ phaseListeners m →
  (cb ∉ phaseListeners (run ops m))
  ∧ filter (λ c, c = cb) (phaseDeliveredTo (delivered (run ops m)))
    = filter (λ c, c = cb) (phaseDeliveredTo (delivered m)).
Proof.
  intros Hops. revert m.
  induction Hops as [| op ops Hop _ IH]; intros m Hcb; [done |].
  change (run (op :: ops) m) with (run ops (step m op)).
  destruct (IH (step m op)) as [Hcb' ->].
  { by apply step_phaseListeners. }
  split; [exact Hcb' |].
  destruct (step_phase_deliveries m op) as [-> | ->]; [done |].
  rewrite filter_app, (filter_eq_not_elem_of cb _ Hcb). apply app_nil_r.
Qed.

(** X9: a phase listener that was removed is not called again: after
    [removePhaseListener], every sequence of operations that does not add
    that callback back keeps it out of the listeners and delivers no
    phase-change event to it. *)
Theorem removed_phase_listener_not_called (cb : CallbackId) (ops : list Op)
    (m : TurnManager) :
  Forall (λ op, op ≠ OpAddPhaseListener cb) ops →
  let m' := run ops (removePhaseListener cb m) in
  (cb ∉ phaseListeners m')
  ∧ filter (λ c, c = cb) (phaseDeliveredTo (delivered m'))
    = filter (λ c, c = cb) (phaseDeliveredTo (delivered m)).
Proof.
  intros Hops m'. subst m'.
  apply (removed_listener_run cb ops (removePhaseListener cb m) Hops).
  cbn. unfold set_delete. by intros [Hne _]%list_elem_of_filter.
Qed.

(** A listener hears the first phase change, is removed, and hears none
    of the next nine calls, while another listener stays registered. *)
Lemma removed_phase_listener_not_called_witness :
  let m := (nextPhase (addPhaseListener 3%nat
                         (constructor "p1" "p2" DEFAULT_CONFIG))).1 in
  let ops := OpAddPhaseListener 4%nat :: OpSetPhase main
             :: replicate 8 OpNextPhase in
  filter (λ c, c = 3%nat)
    (phaseDeliveredTo (delivered (run ops (removePhaseListener 3%nat m))))
  = [3%nat].
Proof.
  intros m ops.
  assert (Hops : Forall (λ op, op ≠ OpAddPhaseListener 3%nat) ops).
  { repeat (apply Forall_cons_2; [discriminate |]). apply Forall_nil_2. }
  destruct (removed_phase_listener_not_called 3%nat ops m Hops) as [_ H].
  exact (eq_trans H eq_refl).
Defined.

End TurnFurther.

(** ** Life totals *)

Section LifeFurther.
Import Life.

(** X10: on a player that was never initialized, [getLife], [setLife],
    [changeLife], [resetLife], [isAlive] and [isDead] throw the not-found
    error, [dealDamage] and [heal] throw it unless the amount is negative
    (the amount is checked first), and all of them leave the manager as it
    is; [hasPlayer] answers false. *)
Theorem unknown_player_throws (m : LifeManager) (playerId : string)
    (life amount : Z) (source : option string) :
  lifeTotals m !! playerId = None →
  let notFound := NotFound ("Player " +:+ playerId +:+ " not found") in
  hasPlayer playerId m = false
  ∧ getLife playerId m = (m, Throw notFound)
  ∧ setLife playerId life source m = (m, Throw notFound)
  ∧ changeLife playerId amount source m = (m, Throw notFound)
  ∧ dealDamage playerId amount source m
    = (m, Throw (if bool_decide (amount < 0)
                 then InvalidArgument "Damage amount must be non-negative"
                 else notFound))
  ∧ heal playerId amount source m
    = (m, Throw (if bool_decide (amount < 0)
                 then InvalidArgument "Heal amount must be non-negative"
                 else notFound))
  ∧ resetLife playerId m = (m, Throw notFound)
  ∧ isAlive playerId m = (m, Throw notFound)
  ∧ isDead playerId m = (m, Throw notFound).
Proof.
  intros Hl notFound.
  pose proof (getLife_None m playerId Hl) as Hg. fold notFound in Hg.
  assert (Hset : ∀ v s, setLife playerId v s m = (m, Throw notFound)).
  { intros v s. unfold setLife, bind at 1. by rewrite Hg. }
  assert (Hch : ∀ a, changeLife playerId a source m = (m, Throw notFound)).
  { intros a. unfold changeLife, bind at 1. by rewrite Hg. }
  assert (Halive : isAlive playerId m = (m, Throw notFound)).
  { unfold isAlive, bind at 1. by rewrite Hg. }
  split. { unfold hasPlayer. rewrite Hl. apply bool_decide_eq_false_2.
           by intros [? ?]. }
  split; [exact Hg |]. split; [apply Hset |]. split; [apply Hch |].
  split. { unfold dealDamage. case_bool_decide; [done | apply Hch]. }
  split. { unfold heal. case_bool_decide; [done | apply Hch]. }
  split. { unfold resetLife. run_monad. by rewrite Hset. }
  split; [exact Halive |].
  unfold isDead, bind. by rewrite Halive.
Qed.

(** A manager that knows only "p1", asked about "p2". *)
Lemma unknown_player_throws_witness :
  let m := (initializePlayer "p1" None (constructor DEFAULT_CONFIG)).1 in
  dealDamage "p2" 3 None m = (m, Throw (NotFound "Player p2 not found"))
  ∧ heal "p2" (-3) None m
    = (m, Throw (InvalidArgument "Heal amount must be non-negative")).
Proof.
  intros m.
  assert (Hl : lifeTotals m !! "p2" = None) by (by vm_compute).
  destruct (unknown_player_throws m "p2" 0 3 None Hl)
    as (_ & _ & _ & _ & Hd & _).
  destruct (unknown_player_throws m "p2" 0 (-3) None Hl)
    as (_ & _ & _ & _ & _ & Hh & _).
  split; [exact Hd | exact Hh].
Defined.

Lemma clampLife_id (cfg : LifeManagerConfig) (life : Z) :
  inRange cfg life → clampLife cfg life = life.
Proof.
  intros [Hlo Hhi]. unfold clampLife.
  destruct (maxLife cfg) as [hi |]; [specialize (Hhi hi eq_refl) |]; lia.
Qed.

Lemma clampLife_idempotent (cfg : LifeManagerConfig) (life : Z) :
  clampLife cfg (clampLife cfg life) = clampLife cfg life.
Proof. unfold clampLife. destruct (maxLife cfg); lia. Qed.

Lemma setLife_lifeTotals (m : LifeManager) playerId previous life source :
  lifeTotals m !! playerId = Some previous →
  lifeTotals (setLife playerId life source m).1
  = <[playerId := clampLife (config m) life]> (lifeTotals m)
  ∧ config (setLife playerId life source m).1 = config m
  ∧ listeners (setLife playerId life source m).1 = listeners m.
Proof. intros Hl. by rewrite (setLife_Some _ _ _ life source Hl). Qed.

(** X11: for an initialized player, [getLife] after [setLife] returns the
    requested life clamped to the configured range, and the requested life
    itself when that lies in the range; setting the same life again changes
    nothing and reports change 0. *)
Theorem setLife_then_getLife (m : LifeManager) (playerId : string)
    (previous life : Z) (source : option string) :
  lifeTotals m !! playerId = Some previous →
  let m' := (setLife playerId life source m).1 in
  getLife playerId m' = (m', Ok (clampLife (config m) life))
  ∧ (inRange (config m) life → getLife playerId m' = (m', Ok life))
  ∧ lifeTotals (setLife playerId life source m').1 = lifeTotals m'
  ∧ (setLife playerId life source m').2
    = Ok {| playerId := playerId;
            previousLife := clampLife (config m) life;
            newLife := clampLife (config m) life;
            change := 0; source := source |}.
Proof.
  intros Hl m'.
  destruct (setLife_lifeTotals m playerId previous life source Hl)
    as (Ht & Hc & _). fold m' in Ht, Hc.
  assert (Hl' : lifeTotals m' !! playerId = Some (clampLife (config m) life)).
  { rewrite Ht. apply lookup_insert_eq. }
  split; [by apply getLife_Some |]. split.
  { intros Hr. rewrite (clampLife_id _ _ Hr) in Hl'. by apply getLife_Some. }
  destruct (setLife_lifeTotals m' playerId _ life source Hl') as (Ht' & _).
  rewrite Ht', Hc. split.
  { rewrite Ht. by rewrite insert_insert_eq. }
  rewrite (setLife_Some _ _ _ life source Hl'). cbn [snd].
  by rewrite Hc, Z.sub_diag.
Qed.

(** A player at 20 set to 50 with life capped at 30, and set to 25. *)
Lemma setLife_then_getLife_witness :
  let cfg := {| startingLife := 20; minLife := 0; maxLife := Some 30 |} in
  let m := (initializePlayer "p1" None (constructor cfg)).1 in
  (getLife "p1" (setLife "p1" 50 None m).1).2 = Ok 30
  ∧ (getLife "p1" (setLife "p1" 25 None m).1).2 = Ok 25.
Proof.
  intros cfg m.
  assert (Hl : lifeTotals m !! "p1" = Some 20) by (by vm_compute).
  destruct (setLife_then_getLife m "p1" 20 50 None Hl) as (H50 & _).
  destruct (setLife_then_getLife m "p1" 20 25 None Hl) as (_ & H25 & _).
  split.
  - exact (f_equal snd H50).
  - refine (f_equal snd (H25 _)). split; cbn; [lia |]. intros hi [= <-]. lia.
Defined.

Lemma setLife_others (m : LifeManager) (playerId : string) (life : Z)
    (source : option string) :
  let m' := (setLife playerId life source m).1 in
  (∀ other, other ≠ playerId → lifeTotals m' !! other = lifeTotals m !! other)
  ∧ (∀ p, hasPlayer p m' = hasPlayer p m)
  ∧ config m' = config m
  ∧ listeners m' = listeners m.
Proof.
  intros m'. subst m'. unfold hasPlayer.
  destruct (lifeTotals m !! playerId) as [previous |] eqn:Hl.
  - destruct (setLife_lifeTotals m playerId previous life source Hl)
      as (-> & -> & ->).
    split; [| split; [| done]].
    + intros other Hne. by rewrite lookup_insert_ne.
    + intros p. destruct (decide (p = playerId)) as [-> | Hne].
      * rewrite Hl. rewrite lookup_insert_eq.
        rewrite !bool_decide_eq_true_2; [done | by eexists | by eexists].
      * rewrite lookup_insert_ne; [done | congruence].
  - by rewrite setLife_None.
Qed.

(** X12: [setLife] on one player touches nobody else: every other
    player keeps their life, the set of players is as before, and
    configuration and listeners are kept. *)
Theorem setLife_frame (m : LifeManager) (playerId : string) (life : Z)
    (source : option string) :
  let m' := (setLife playerId life source m).1 in
  (∀ other, other ≠ playerId → lifeTotals m' !! other = lifeTotals m !! other)
  ∧ (∀ p, hasPlayer p m' = hasPlayer p m)
  ∧ config m' = config m
  ∧ listeners m' = listeners m.
Proof. apply setLife_others. Qed.

Lemma dealDamage_lifeTotals (m : LifeManager) playerId previous amount source :
  lifeTotals m !! playerId = Some previous → 0 ≤ amount →
  lifeTotals (dealDamage playerId amount source m).1
  = <[playerId := clampLife (config m) (previous - amount)]> (lifeTotals m)
  ∧ config (dealDamage playerId amount source m).1 = config m.
Proof.
  intros Hl Ha. unfold dealDamage.
  rewrite (bool_decide_eq_false_2 (amount < 0)) by lia.
  rewrite (changeLife_Some _ _ _ _ source Hl).
  destruct (setLife_lifeTotals m playerId previous (previous + - amount)
              source Hl) as (-> & -> & _).
  by replace (previous + - amount) with (previous - amount) by lia.
Qed.

Lemma heal_lifeTotals (m : LifeManager) playerId previous amount source :
  lifeTotals m !! playerId = Some previous → 0 ≤ amount →
  lifeTotals (heal playerId amount source m).1
  = <[playerId := clampLife (config m) (previous + amount)]> (lifeTotals m)
  ∧ config (heal playerId amount source m).1 = config m.
Proof.
  intros Hl Ha. unfold heal.
  rewrite (bool_decide_eq_false_2 (amount < 0)) by lia.
  rewrite (changeLife_Some _ _ _ _ source Hl).
  by destruct (setLife_lifeTotals m playerId previous (previous + amount)
                 source Hl) as (-> & -> & _).
Qed.



(** X14: damage of at least the life above [minLife] is lethal: for a
    player whose life lies in the configured range, [dealDamage] with such
    an amount leaves the life at [minLife], [isDead] answers true and
    [isAlive] false. *)
Theorem lethal_damage (m : LifeManager) (playerId : string)
    (previous amount : Z) (source : option string) :
  lifeTotals m !! playerId = Some previous →
  inRange (config m) previous →
  previous - minLife (config m) ≤ amount →
  let m' := (dealDamage playerId amount source m).1 in
  getLife playerId m' = (m', Ok (minLife (config m)))
  ∧ isAlive playerId m' = (m', Ok false)
  ∧ isDead playerId m' = (m', Ok true).
Proof.
  intros Hl [Hlo Hhi] Ha m'.
  assert (H0 : 0 ≤ amount) by lia.
  destruct (dealDamage_lifeTotals m playerId previous amount source Hl H0)
    as (Ht & Hc). fold m' in Ht, Hc.
  assert (Hclamp : clampLife (config m) (previous - amount) = minLife (config m)).
  { unfold clampLife.
    destruct (maxLife (config m)) as [hi |]; [specialize (Hhi hi eq_refl) |];
      lia. }
  assert (Hl' : lifeTotals m' !! playerId = Some (minLife (config m))).
  { rewrite Ht, <- Hclamp. apply lookup_insert_eq. }
  pose proof (getLife_Some _ _ _ Hl') as Hg.
  assert (Halive : isAlive playerId m' = (m', Ok false)).
  { unfold isAlive, bind at 1. rewrite Hg. run_monad. rewrite Hc.
    by rewrite bool_decide_eq_false_2 by lia. }
  split; [exact Hg |]. split; [exact Halive |].
  unfold isDead, bind. by rewrite Halive.
Qed.

(** A player at 5 life takes 7 damage. *)
Lemma lethal_damage_witness :
  let m := (initializePlayer "p1" (Some 5) (constructor DEFAULT_CONFIG)).1 in
  (isDead "p1" (dealDamage "p1" 7 None m).1).2 = Ok true.
Proof.
  intros m.
  assert (Hl : lifeTotals m !! "p1" = Some 5) by (by vm_compute).
  assert (Hr : inRange (config m) 5).
  { split; cbn; [lia |]. intros hi [=]. }
  assert (Ha : 5 - minLife (config m) ≤ 7) by (cbn; lia).
  destruct (lethal_damage m "p1" 5 7 None Hl Hr Ha) as (_ & _ & Hd).
  exact (f_equal snd Hd).
Defined.

(** X16: healing that stays within the range is undone by the same
    damage, and damage that stays within the range by the same healing,
    for integers that a JavaScript number holds exactly: for a player whose
    life is a safe integer in the range and a non-negative safe integer
    amount, [heal] then [dealDamage] of the amount gives back the previous
    life when the previous life plus the amount is a safe integer in the
    range, and [dealDamage] then [heal] when the previous life minus the
    amount is.  (At a life of 2^53 the sum in [changeLife] rounds and
    [heal] 1 followed by [dealDamage] 1 leaves 2^53 - 1; the bound keeps
    the statement to the numbers on which the integers of the model and the
    numbers of the code add alike.) *)
Theorem heal_damage_roundtrip (m : LifeManager) (playerId : string)
    (previous amount : Z) (source : option string) :
  lifeTotals m !! playerId = Some previous →
  inRange (config m) previous →
  isSafeInteger previous →
  0 ≤ amount →
  isSafeInteger amount →
  (inRange (config m) (previous + amount) →
   isSafeInteger (previous + amount) →
     lifeTotals (dealDamage playerId amount source
                   (heal playerId amount source m).1).1 = lifeTotals m)
  ∧ (inRange (config m) (previous - amount) →
     isSafeInteger (previous - amount) →
     lifeTotals (heal playerId amount source
                   (dealDamage playerId amount source m).1).1 = lifeTotals m).
Proof.
  intros Hl Hr _ Ha _. split; intros Hr' _.
  - destruct (heal_lifeTotals m playerId previous amount source Hl Ha)
      as (Ht & Hc).
    rewrite (clampLife_id _ _ Hr') in Ht.
    assert (Hl' : lifeTotals (heal playerId amount source m).1 !! playerId
                  = Some (previous + amount)).
    { rewrite Ht. apply lookup_insert_eq. }
    destruct (dealDamage_lifeTotals _ playerId _ amount source Hl' Ha)
      as (-> & _).
    rewrite Ht, Hc, insert_insert_eq.
    replace (previous + amount - amount) with previous by lia.
    rewrite (clampLife_id _ _ Hr). by apply insert_id.
  - destruct (dealDamage_lifeTotals m playerId previous amount source Hl Ha)
      as (Ht & Hc).
    rewrite (clampLife_id _ _ Hr') in Ht.
    assert (Hl' : lifeTotals (dealDamage playerId amount source m).1 !! playerId
                  = Some (previous - amount)).
    { rewrite Ht. apply lookup_insert_eq. }
    destruct (heal_lifeTotals _ playerId _ amount source Hl' Ha) as (-> & _).
    rewrite Ht, Hc, insert_insert_eq.
    replace (previous - amount + amount) with previous by lia.
    rewrite (clampLife_id _ _ Hr). by apply insert_id.
Qed.

(** A player at 20 heals 5 and takes 5 damage, and the other way round. *)
Lemma heal_damage_roundtrip_witness :
  let m := (initializePlayer "p1" None (constructor DEFAULT_CONFIG)).1 in
  lifeTotals (dealDamage "p1" 5 None (heal "p1" 5 None m).1).1 = lifeTotals m
  ∧ lifeTotals (heal "p1" 5 None (dealDamage "p1" 5 None m).1).1 = lifeTotals m.
Proof.
  intros m.
  assert (Hl : lifeTotals m !! "p1" = Some 20) by (by vm_compute).
  assert (Hr : ∀ v, 0 ≤ v → inRange (config m) v).
  { intros v Hv. split; cbn; [lia |]. intros hi [=]. }
  assert (Hs : ∀ v, 0 ≤ v ≤ 25 → isSafeInteger v).
  { intros v Hv. unfold isSafeInteger, MAX_SAFE_INTEGER. lia. }
  assert (H5 : 0 ≤ 5) by lia.
  destruct (heal_damage_roundtrip m "p1" 20 5 None Hl (Hr 20 ltac:(lia))
              (Hs 20 ltac:(lia)) H5 (Hs 5 ltac:(lia)))
    as [Hhd Hdh].
  split; [apply Hhd | apply Hdh]; (apply Hr || apply Hs); lia.
Defined.

Lemma resetLife_Some (m : LifeManager) (playerId : string) (previous : Z) :
  lifeTotals m !! playerId = Some previous →
  (resetLife playerId m).2 = Ok tt
  ∧ lifeTotals (resetLife playerId m).1
    = <[playerId := clampLife (config m) (startingLife (config m))]>
        (lifeTotals m)
  ∧ config (resetLife playerId m).1 = config m
  ∧ listeners (resetLife playerId m).1 = listeners m
  ∧ length (delivered (resetLife playerId m).1)
    = (length (delivered m) + length (listeners m))%nat.
Proof.
  intros Hl. unfold resetLife. run_monad.
  rewrite (setLife_Some _ _ _ (startingLife (config m)) (Some "reset") Hl).
  cbn. by rewrite length_app, length_map.
Qed.

(** The loop of [resetAllLife] over players that are all initialized. *)
Lemma forEach_resetLife (ids : list string) (m : LifeManager) :
  (∀ p, p ∈ ids → is_Some (lifeTotals m !! p)) →
  let reset := clampLife (config m) (startingLife (config m)) in
  (forEach ids resetLife m).2 = Ok tt
  ∧ (∀ p, lifeTotals (forEach ids resetLife m).1 !! p
          = if decide (p ∈ ids) then Some reset else lifeTotals m !! p)
  ∧ config (forEach ids resetLife m).1 = config m
  ∧ listeners (forEach ids resetLife m).1 = listeners m
  ∧ length (delivered (forEach ids resetLife m).1)
    = (length (delivered m) + length ids * length (listeners m))%nat.
Proof.
  revert m. induction ids as [| playerId ids IH]; intros m Hall reset.
  - cbn. split; [done |]. split; [| split; [done | split; [done | lia]]].
    intros p. rewrite decide_False; [done | apply not_elem_of_nil].
  - destruct (Hall playerId) as [previous Hl]; [apply list_elem_of_here |].
    destruct (resetLife_Some m playerId previous Hl)
      as (Hok & Ht & Hc & Hls & Hd).
    cbn [forEach]. unfold bind.
    destruct (resetLife playerId m) as [m1 [[] | e]] eqn:Hr; [| done].
    cbn [fst snd] in *.
    destruct (IH m1) as (Hok' & Ht' & Hc' & Hls' & Hd').
    { intros p Hp. rewrite Ht. destruct (decide (p = playerId)) as [-> | Hne].
      - rewrite lookup_insert_eq. by eexists.
      - rewrite lookup_insert_ne by congruence.
        apply Hall. by apply list_elem_of_further. }
    rewrite Hc in Ht'.
    split; [exact Hok' |]. split; [| split; [congruence | split; [congruence |]]].
    + intros p. rewrite Ht', Ht.
      destruct (decide (p = playerId)) as [-> | Hne].
      * rewrite lookup_insert_eq.
        rewrite (decide_True (P := playerId ∈ playerId :: ids))
          by apply list_elem_of_here.
        by case_decide.
      * rewrite lookup_insert_ne by congruence.
        destruct (decide (p ∈ ids)) as [Hin | Hnin].
        -- by rewrite decide_True by (by apply list_elem_of_further).
        -- rewrite decide_False; [done |].
           by intros [? | ?]%elem_of_cons.
    + rewrite Hd', Hd, Hls. cbn [length]. lia.
Qed.

Lemma elem_of_getPlayerIds (m : LifeManager) (p : string) :
  p ∈ getPlayerIds m ↔ is_Some (lifeTotals m !! p).
Proof.
  unfold getPlayerIds. rewrite list_elem_of_fmap. split.
  - intros [[q v] [-> Hin]]. apply elem_of_map_to_list in Hin. by eexists.
  - intros [v Hv]. exists (p, v). split; [done |].
    by apply elem_of_map_to_list.
Qed.

(** X15: [resetAllLife] never throws; afterwards every initialized player
    has the configured starting life clamped to the range, the players are
    the same, configuration and listeners are kept, and each listener was
    called once for each player. *)
Theorem resetAllLife_resets_everyone (m : LifeManager) :
  (resetAllLife m).2 = Ok tt
  ∧ lifeTotals (resetAllLife m).1
    = (λ _, clampLife (config m) (startingLife (config m))) <$> lifeTotals m
  ∧ config (resetAllLife m).1 = config m
  ∧ listeners (resetAllLife m).1 = listeners m
  ∧ length (delivered (resetAllLife m).1)
    = (length (delivered m) + size (lifeTotals m) * length (listeners m))%nat.
Proof.
  unfold resetAllLife. run_monad.
  destruct (forEach_resetLife (getPlayerIds m) m)
    as (Hok & Ht & Hc & Hls & Hd).
  { intros p. apply elem_of_getPlayerIds. }
  split; [exact Hok |]. split; [| split; [exact Hc | split; [exact Hls |]]].
  - apply map_eq. intros p. rewrite Ht, lookup_fmap.
    destruct (lifeTotals m !! p) as [v |] eqn:Hp.
    + rewrite decide_True; [done |]. apply elem_of_getPlayerIds. by eexists.
    + rewrite decide_False; [done |].
      intros [v Hv]%elem_of_getPlayerIds. congruence.
  - rewrite Hd. unfold getPlayerIds.
    by rewrite length_fmap, length_map_to_list.
Qed.

End LifeFurther.

(** ** Tokens *)

Section TokenFurther.
Import Token.

Lemma maxCount_set_tokens (m : TokenManager) (t : gmap string loc) tokenId :
  maxCount (set_tokens t m) tokenId = maxCount m tokenId.
Proof. reflexivity. Qed.

(** [addToken] on a card that has a token object, and on a new card. *)
Lemma addToken_present (m : TokenManager) (h : Heap) cardId tokenId count l :
  tokens m !! cardId = Some l →
  let new := Z.min (default 0 (deref h l !! tokenId) + count)
                   (maxCount m tokenId) in
  addToken cardId tokenId count m h
  = (new, m, store l (<[tokenId := new]> (deref h l)) h).
Proof. intros Hl. unfold addToken. by rewrite Hl. Qed.

Lemma addToken_absent (m : TokenManager) (h : Heap) cardId tokenId count :
  tokens m !! cardId = None →
  let new := Z.min count (maxCount m tokenId) in
  addToken cardId tokenId count m h
  = (new, set_tokens (<[cardId := next h]> (tokens m)) m,
     store (next h) {[ tokenId := new ]} (alloc ∅ h).2).
Proof.
  intros Hl. unfold addToken. rewrite Hl.
  pose proof (deref_alloc h ∅) as Hd. unfold alloc in *. cbn [fst snd] in *.
  rewrite Hd, lookup_empty. cbn [default from_option]. rewrite Z.add_0_l.
  by rewrite insert_empty.
Qed.

Lemma deref_store_alloc (h : Heap) (o : TokenState) (l : loc) :
  deref (store (next h) o (alloc ∅ h).2) l
  = if decide (l = next h) then o else deref h l.
Proof.
  case_decide as Hd.
  - subst. apply deref_store_eq.
  - rewrite deref_store_ne by congruence.
    unfold deref, alloc. cbn. by rewrite lookup_insert_ne by congruence.
Qed.


(** [removeToken] on a card that has a token object. *)
Lemma removeToken_present (m : TokenManager) (h : Heap) cardId tokenId count l :
  tokens m !! cardId = Some l →
  let new := Z.max (default 0 (deref h l !! tokenId) - count) 0 in
  let o := if decide (new = 0) then delete tokenId (deref h l)
           else <[tokenId := new]> (deref h l) in
  removeToken cardId tokenId count m h
  = (new,
     if decide (size o = 0%nat)
     then set_tokens (delete cardId (tokens m)) m else m,
     store l o h).
Proof. intros Hl. unfold removeToken. by rewrite Hl. Qed.

Lemma removeToken_result (m : TokenManager) (h : Heap) (cardId : string)
    (tokenId : TokenId) (count : Z) :
  let before := getTokenCount cardId tokenId m h in
  let '(result, m', h') := removeToken cardId tokenId count m h in
  result = (if decide (is_Some (tokens m !! cardId))
            then Z.max (before - count) 0 else 0)
  ∧ getTokenCount cardId tokenId m' h' = result
  ∧ (∀ other, other ≠ tokenId →
       getTokenCount cardId other m' h' = getTokenCount cardId other m h)
  ∧ (tokens m !! cardId = None → m' = m ∧ h' = h).
Proof.
  unfold getTokenCount at 1.
  destruct (tokens m !! cardId) as [l |] eqn:Hl.
  - rewrite (removeToken_present m h cardId tokenId count l Hl).
    set (new := Z.max (default 0 (deref h l !! tokenId) - count) 0).
    rewrite decide_True by (by eexists).
    split; [done |]. split; [| split; [| done]].
    + unfold getTokenCount. destruct (decide (new = 0)) as [H0 | H0].
      * case_decide; cbn [tokens set_tokens].
        -- by rewrite lookup_delete_eq.
        -- by rewrite Hl, deref_store_eq, lookup_delete_eq.
      * rewrite decide_False by apply size_insert_pos.
        by rewrite Hl, deref_store_eq, lookup_insert_eq.
    + intros other Hne. unfold getTokenCount. rewrite Hl.
      destruct (decide (new = 0)) as [H0 | H0].
      * case_decide as Hs; cbn [tokens set_tokens].
        -- rewrite lookup_delete_eq.
           apply map_size_empty_iff in Hs.
           assert (Ho : delete tokenId (deref h l) !! other = None)
             by (by rewrite Hs, lookup_empty).
           rewrite lookup_delete_ne in Ho by congruence. by rewrite Ho.
        -- rewrite Hl, deref_store_eq. by rewrite lookup_delete_ne by congruence.
      * rewrite decide_False by apply size_insert_pos.
        rewrite Hl, deref_store_eq. by rewrite lookup_insert_ne by congruence.
  - unfold removeToken. rewrite Hl. rewrite decide_False by (by intros [? ?]).
    unfold getTokenCount. by rewrite Hl.
Qed.


(** X19: [setTokenCount] makes [getTokenCount] answer the requested count
    brought into the range from 0 to the capacity of the kind, whatever was
    stored before, and leaves the counts of the other kinds on the card as
    they were. *)
Theorem setTokenCount_count (m : TokenManager) (h : Heap) (cardId : string)
    (tokenId : TokenId) (count : Z) :
  let '(m', h') := setTokenCount cardId tokenId count m h in
  getTokenCount cardId tokenId m' h'
  = Z.min (Z.max count 0) (maxCount m tokenId)
  ∧ ∀ other, other ≠ tokenId →
      getTokenCount cardId other m' h' = getTokenCount cardId other m h.
Proof.
  unfold setTokenCount.
  destruct (decide (Z.min (Z.max count 0) (maxCount m tokenId) = 0))
    as [H0 | H0].
  - pose proof (removeToken_result m h cardId tokenId
                  (getTokenCount cardId tokenId m h)) as Hr.
    cbn zeta in Hr.
    destruct (removeToken cardId tokenId _ m h) as [[r m'] h'].
    destruct Hr as (Hres & Hcount & Hother & _).
    split; [| exact Hother].
    rewrite Hcount, Hres, H0. case_decide; lia.
  - destruct (tokens m !! cardId) as [l |] eqn:Hl.
    + unfold getTokenCount. rewrite Hl, deref_store_eq, lookup_insert_eq.
      split; [done |].
      intros other Hne. by rewrite lookup_insert_ne by congruence.
    + pose proof (deref_alloc h ∅) as Hd.
      pose proof (deref_store_alloc h) as Hsa.
      unfold alloc in *. cbn [fst snd] in *. rewrite Hd.
      unfold getTokenCount. cbn [tokens set_tokens].
      rewrite Hl, lookup_insert_eq, Hsa, decide_True by done.
      rewrite lookup_insert_eq. split; [done |].
      intros other Hne. rewrite lookup_insert_ne by congruence.
      by rewrite lookup_empty.
Qed.

(** *** The stack limit *)

Lemma withinCapacity_alt (m : TokenManager) (h : Heap) :
  withinCapacity m h
  ↔ ∀ cardId l, tokens m !! cardId = Some l → capped m (deref h l).
Proof.
  unfold withinCapacity, getTokensOnCard, capped. split.
  - intros H c l Hl k v Hv. apply (H c). by rewrite Hl.
  - intros H c k v. destruct (tokens m !! c) as [l |] eqn:Hl.
    + by apply (H c l).
    + by rewrite lookup_empty.
Qed.

Lemma capped_insert (m : TokenManager) (o : TokenState) tokenId count :
  capped m o → count ≤ maxCount m tokenId →
  capped m (<[tokenId := count]> o).
Proof.
  intros Ho Hc k v. rewrite lookup_insert. case_decide.
  - subst. by intros [= <-].
  - apply Ho.
Qed.

Lemma capped_delete (m : TokenManager) (o : TokenState) tokenId :
  capped m o → capped m (delete tokenId o).
Proof.
  intros Ho k v. rewrite lookup_delete. case_decide; [done | apply Ho].
Qed.

Lemma capped_empty (m : TokenManager) : capped m ∅.
Proof. intros k v. by rewrite lookup_empty. Qed.

(** Overwriting an object of the heap with a capped object. *)
Lemma withinCapacity_store (m : TokenManager) (h : Heap) (l : loc)
    (o : TokenState) :
  withinCapacity m h → capped m o → withinCapacity m (store l o h).
Proof.
  rewrite !withinCapacity_alt. intros H Ho c l' Hl.
  destruct (decide (l = l')) as [<- | Hne].
  - by rewrite deref_store_eq.
  - rewrite deref_store_ne by done. by apply (H c).
Qed.

Lemma withinCapacity_sub (m : TokenManager) (h : Heap) (t : gmap string loc) :
  withinCapacity m h → (∀ c l, t !! c = Some l → tokens m !! c = Some l) →
  withinCapacity (set_tokens t m) h.
Proof.
  rewrite !withinCapacity_alt. intros H Hsub c l Hl.
  apply (H c). by apply Hsub.
Qed.

Lemma withinCapacity_alloc (m : TokenManager) (h : Heap) (cardId : string)
    (o : TokenState) :
  withinCapacity m h → capped m o →
  withinCapacity (set_tokens (<[cardId := next h]> (tokens m)) m)
    (store (next h) o (alloc ∅ h).2).
Proof.
  rewrite !withinCapacity_alt. intros H Ho c l. cbn [tokens set_tokens].
  rewrite deref_store_alloc. case_decide; [done |].
  rewrite lookup_insert. case_decide; [congruence |]. apply (H c).
Qed.

Lemma withinCapacity_removeToken (m : TokenManager) (h : Heap)
    cardId tokenId count :
  0 ≤ count ∨ count = getTokenCount cardId tokenId m h →
  withinCapacity m h →
  let '(_, m', h') := removeToken cardId tokenId count m h in
  withinCapacity m' h'.
Proof.
  intros Hc Hi. unfold getTokenCount in Hc.
  destruct (tokens m !! cardId) as [l |] eqn:Hl.
  - rewrite (removeToken_present m h cardId tokenId count l Hl).
    assert (Ho : capped m (deref h l)).
    { by apply (proj1 (withinCapacity_alt m h) Hi cardId). }
    set (new := Z.max (default 0 (deref h l !! tokenId) - count) 0).
    destruct (decide (new = 0)) as [H0 | H0].
    + pose proof (capped_delete m _ tokenId Ho) as Ho'.
      destruct (decide (size (delete tokenId (deref h l)) = 0%nat)).
      * apply withinCapacity_sub; [by apply withinCapacity_store |].
        intros c l'. rewrite lookup_delete. by case_decide.
      * by apply withinCapacity_store.
    + rewrite decide_False by apply size_insert_pos.
      apply withinCapacity_store; [done |].
      apply capped_insert; [done |]. subst new.
      destruct (deref h l !! tokenId) as [v |] eqn:Hv; cbn in *.
      * specialize (Ho _ _ Hv). lia.
      * lia.
  - unfold removeToken. by rewrite Hl.
Qed.

Lemma withinCapacity_step (s : TokenManager * Heap) (op : Op) :
  nonNegativeRemove op →
  withinCapacity s.1 s.2 → withinCapacity (step s op).1 (step s op).2.
Proof.
  destruct s as [m h]. intros Hop Hi. cbn [fst snd] in Hi.
  destruct op as [c t n | c t n | c t n | c |];
    cbn [step nonNegativeRemove] in *.
  - destruct (tokens m !! c) as [l |] eqn:Hl.
    + rewrite (addToken_present m h c t n l Hl). cbn [fst snd].
      apply withinCapacity_store; [done |].
      apply capped_insert; [| lia].
      by apply (proj1 (withinCapacity_alt m h) Hi c).
    + rewrite (addToken_absent m h c t n Hl). cbn [fst snd].
      apply withinCapacity_alloc; [done |].
      rewrite <- insert_empty. apply capped_insert; [apply capped_empty | lia].
  - pose proof (withinCapacity_removeToken m h c t n (or_introl Hop) Hi) as H.
    by destruct (removeToken c t n m h) as [[r m'] h'].
  - unfold setTokenCount. case_decide as H0.
    + pose proof (withinCapacity_removeToken m h c t _
                    (or_intror eq_refl) Hi) as H.
      by destruct (removeToken c t _ m h) as [[r m'] h'].
    + destruct (tokens m !! c) as [l |] eqn:Hl; cbn [fst snd].
      * apply withinCapacity_store; [done |].
        apply capped_insert; [| lia].
        by apply (proj1 (withinCapacity_alt m h) Hi c).
      * pose proof (deref_alloc h ∅) as Hd.
        pose proof (withinCapacity_alloc m h c) as Ha.
        unfold alloc in *. cbn [fst snd] in *. rewrite Hd.
        apply Ha; [done |].
        apply capped_insert; [apply capped_empty | lia].
  - apply withinCapacity_sub; [done |].
    intros c' l. rewrite lookup_delete. by case_decide.
  - apply withinCapacity_sub; [done |]. intros c' l. by rewrite lookup_empty.
Qed.

(** X20: the stack limit holds: after every sequence of [addToken],
    [removeToken], [setTokenCount], [clearTokens] and [clearAllTokens]
    calls on a new manager in which no [removeToken] has a negative count,
    no stored count is above the capacity of its kind, so that a stun or
    freeze token is never counted more than once. *)
Theorem counts_within_capacity (cfg : TokenManagerConfig) (ops : list Op)
    (cardId : string) (tokenId : TokenId) (count : Z) :
  Forall nonNegativeRemove ops →
  let s := run ops (constructor cfg, emptyHeap) in
  getTokensOnCard cardId s.1 s.2 !! tokenId = Some count →
  count ≤ (if stackable (TOKEN_DEFINITIONS tokenId) then stackLimit cfg else 1).
Proof.
  intros Hops s.
  assert (Hi : withinCapacity s.1 s.2 ∧ config s.1 = cfg).
  { subst s. unfold run.
    assert (H0 : withinCapacity (constructor cfg, emptyHeap).1
                   (constructor cfg, emptyHeap).2
                 ∧ config (constructor cfg, emptyHeap).1 = cfg).
    { split; [| done]. intros c k v Hv. by vm_compute in Hv. }
    revert H0. generalize (constructor cfg, emptyHeap).
    induction Hops as [| op ops Hop _ IH]; intros s [H0 Hc]; [done |].
    cbn [foldl]. apply IH. split; [by apply withinCapacity_step |].
    rewrite <- Hc. destruct s as [m h].
    destruct op as [c t n | c t n | c t n | c |]; cbn [step fst]; try done.
    - unfold addToken. by destruct (tokens m !! c).
    - unfold removeToken. destruct (tokens m !! c); [| done]. cbn.
      by case_decide.
    - unfold setTokenCount. case_decide.
      + unfold removeToken. destruct (tokens m !! c); [| done]. cbn.
        by case_decide.
      + by destruct (tokens m !! c). }
  destruct Hi as [Hi Hc]. intros Hv. specialize (Hi _ _ _ Hv).
  unfold maxCount in Hi. by rewrite Hc in Hi.
Qed.

(** Two stun tokens and fifteen damage counters with a stack limit of 10. *)
Lemma counts_within_capacity_witness :
  let ops := [OpAddToken "c1" status_stun 2; OpAddToken "c1" damage_counter 15;
              OpRemoveToken "c1" damage_counter 0] in
  let s := run ops (constructor {| stackLimit := 10 |}, emptyHeap) in
  getTokensOnCard "c1" s.1 s.2 !! status_stun = Some 1 ∧ 1 ≤ 1.
Proof.
  intros ops s.
  assert (Hops : Forall nonNegativeRemove ops).
  { repeat (apply Forall_cons_2; [cbn; lia || exact I |]). apply Forall_nil_2. }
  assert (Hv : getTokensOnCard "c1" s.1 s.2 !! status_stun = Some 1)
    by (by vm_compute).
  split; [exact Hv |].
  exact (counts_within_capacity {| stackLimit := 10 |} ops "c1" status_stun 1
           Hops Hv).
Defined.

(** *** Cards do not share token objects *)

Lemma separated_store (m : TokenManager) (h : Heap) (l : loc) (o : TokenState) :
  separated m h → separated m (store l o h).
Proof. by intros [Hwf Hinj]. Qed.

Lemma separated_sub (m : TokenManager) (h : Heap) (t : gmap string loc) :
  separated m h → (∀ c l, t !! c = Some l → tokens m !! c = Some l) →
  separated (set_tokens t m) h.
Proof.
  intros [Hwf Hinj] Hsub. split; cbn.
  - intros c l Hl%Hsub. by apply (Hwf c).
  - intros c c' l H1%Hsub H2%Hsub. by apply (Hinj c c' l).
Qed.

Lemma separated_alloc (m : TokenManager) (h : Heap) (cardId : string)
    (o : TokenState) :
  separated m h →
  separated (set_tokens (<[cardId := next h]> (tokens m)) m)
    (store (next h) o (alloc ∅ h).2).
Proof.
  intros [Hwf Hinj]. split; cbn.
  - intros c l. rewrite lookup_insert. case_decide.
    + intros [= <-]. lia.
    + intros Hl. specialize (Hwf _ _ Hl). lia.
  - intros c c' l. rewrite !lookup_insert. repeat case_decide; subst.
    + done.
    + intros [= <-] Hl. specialize (Hwf _ _ Hl). lia.
    + intros Hl [= <-]. specialize (Hwf _ _ Hl). lia.
    + apply Hinj.
Qed.

Lemma delete_sub (t : gmap string loc) (cardId : string) :
  ∀ c l, delete cardId t !! c = Some l → t !! c = Some l.
Proof. intros c l. rewrite lookup_delete. by case_decide. Qed.

Lemma separated_step (s : TokenManager * Heap) (op : Op) :
  separated s.1 s.2 → separated (step s op).1 (step s op).2.
Proof.
  destruct s as [m h]. intros Hi. cbn [fst snd] in Hi.
  destruct op as [c t n | c t n | c t n | c |]; cbn [step].
  - destruct (tokens m !! c) as [l |] eqn:Hl.
    + rewrite (addToken_present m h c t n l Hl). by apply separated_store.
    + rewrite (addToken_absent m h c t n Hl). by apply separated_alloc.
  - destruct (tokens m !! c) as [l |] eqn:Hl.
    + rewrite (removeToken_present m h c t n l Hl). cbn [fst snd].
      case_decide.
      * apply separated_sub; [by apply separated_store | apply delete_sub].
      * by apply separated_store.
    + unfold removeToken. by rewrite Hl.
  - unfold setTokenCount. case_decide.
    + destruct (tokens m !! c) as [l |] eqn:Hl.
      * rewrite (removeToken_present m h c t _ l Hl). cbn [fst snd].
        case_decide.
        -- apply separated_sub; [by apply separated_store | apply delete_sub].
        -- by apply separated_store.
      * unfold removeToken. by rewrite Hl.
    + destruct (tokens m !! c) as [l |] eqn:Hl; cbn [fst snd].
      * by apply separated_store.
      * pose proof (deref_alloc h ∅) as Hd.
        pose proof (separated_alloc m h c) as Ha.
        unfold alloc in *. cbn [fst snd] in *. by apply Ha.
  - apply separated_sub; [done | apply delete_sub].
  - apply separated_sub; [done |]. intros c' l. by rewrite lookup_empty.
Qed.

Lemma separated_run (s : TokenManager * Heap) (ops : list Op) :
  separated s.1 s.2 → separated (run ops s).1 (run ops s).2.
Proof.
  unfold run. revert s.
  induction ops as [| op ops IH]; intros s H0; [done |].
  cbn [foldl]. apply IH. by apply separated_step.
Qed.

(** A new manager holds no token object. *)
Lemma separated_constructor (cfg : TokenManagerConfig) :
  separated (constructor cfg) emptyHeap.
Proof. split; cbn; intros c; intros; by rewrite lookup_empty in *. Qed.

(** [restore] takes the caller's map with the objects in it: the restored
    manager keeps the cards apart exactly when the map holds allocated
    objects and no object twice. *)
Lemma separated_restore (m : TokenManager) (h : Heap) (st : gmap string loc) :
  separated (restore st m) h
  ↔ (∀ cardId l, st !! cardId = Some l → (l < next h)%nat)
    ∧ (∀ cardId cardId' l,
         st !! cardId = Some l → st !! cardId' = Some l → cardId = cardId').
Proof. done. Qed.

(** The map [serialize] returns for a manager that keeps the cards apart
    can be restored, into this or another manager. *)
Lemma separated_restore_serialize (m m' : TokenManager) (h : Heap) :
  separated m h → separated (restore (serialize m) m') h.
Proof. by intros ?%(separated_restore m' h (serialize m)). Qed.

(** Without that condition the cards are not kept apart: a caller copies
    the object of "c1" to "c2" in a serialized map and restores it, as in
    [st = m.serialize(); st.set('c2', st.get('c1')); m.restore(st)];
    afterwards [addToken] on "c1" raises the count on "c2". *)
Lemma restore_shared_object_couples_cards :
  let s := run [OpAddToken "c1" damage_counter 1]
             (constructor DEFAULT_CONFIG, emptyHeap) in
  let st := serialize s.1 in
  let st' := from_option (λ l, <["c2" := l]> st) st (st !! "c1") in
  let m := restore st' s.1 in
  let s' := step (m, s.2) (OpAddToken "c1" damage_counter 1) in
  ¬ separated m s.2
  ∧ getTokenCount "c2" damage_counter m s.2 = 1
  ∧ getTokenCount "c2" damage_counter s'.1 s'.2 = 2.
Proof.
  intros s st st' m s'. split; [| by vm_compute].
  intros [_ Hinj].
  assert (H12 : "c1" = "c2"); [| discriminate H12].
  apply (Hinj "c1" "c2" 0%nat); by vm_compute.
Qed.

(** An operation on one card leaves the token object of another card. *)
Lemma step_other_card (m : TokenManager) (h : Heap) (op : Op)
    (cardId other : string) :
  separated m h → opCard op = Some cardId → other ≠ cardId →
  getTokensOnCard other (step (m, h) op).1 (step (m, h) op).2
  = getTokensOnCard other m h.
Proof.
  intros [Hwf Hinj] Hop Hne.
  assert (Hstore : ∀ l o, tokens m !! cardId = Some l →
            getTokensOnCard other m (store l o h) = getTokensOnCard other m h).
  { intros l o Hl. unfold getTokensOnCard.
    destruct (tokens m !! other) as [l' |] eqn:Hl'; [| done].
    apply deref_store_ne. intros <-. apply Hne. by apply (Hinj other cardId l). }
  assert (Hdel : ∀ h', getTokensOnCard other
                         (set_tokens (delete cardId (tokens m)) m) h'
                       = getTokensOnCard other m h').
  { intros h'. unfold getTokensOnCard. cbn.
    by rewrite lookup_delete_ne by congruence. }
  assert (Halloc : ∀ o, getTokensOnCard other
                          (set_tokens (<[cardId := next h]> (tokens m)) m)
                          (store (next h) o (alloc ∅ h).2)
                        = getTokensOnCard other m h).
  { intros o. unfold getTokensOnCard. cbn.
    rewrite lookup_insert_ne by congruence.
    destruct (tokens m !! other) as [l' |] eqn:Hl'; [| done].
    rewrite deref_store_alloc. specialize (Hwf _ _ Hl').
    rewrite decide_False by lia. done. }
  assert (Hremove : ∀ t n,
            getTokensOnCard other (removeToken cardId t n m h).1.2
              (removeToken cardId t n m h).2
            = getTokensOnCard other m h).
  { intros t n. destruct (tokens m !! cardId) as [l |] eqn:Hl.
    - rewrite (removeToken_present m h cardId t n l Hl). cbn [fst snd].
      case_decide; [rewrite Hdel |]; by apply Hstore.
    - unfold removeToken. by rewrite Hl. }
  destruct op as [c t n | c t n | c t n | c |]; cbn in Hop;
    try discriminate Hop; injection Hop as ->; cbn [step].
  - destruct (tokens m !! cardId) as [l |] eqn:Hl.
    + rewrite (addToken_present m h cardId t n l Hl). by apply Hstore.
    + rewrite (addToken_absent m h cardId t n Hl). apply Halloc.
  - specialize (Hremove t n).
    by destruct (removeToken cardId t n m h) as [[r m'] h'].
  - unfold setTokenCount. case_decide.
    + specialize (Hremove t (getTokenCount cardId t m h)).
      by destruct (removeToken cardId t _ m h) as [[r m'] h'].
    + destruct (tokens m !! cardId) as [l |] eqn:Hl; cbn [fst snd].
      * by apply Hstore.
      * pose proof (deref_alloc h ∅) as Hd.
        unfold alloc in *. cbn [fst snd] in *. apply Halloc.
  - apply Hdel.
Qed.

(** X21: a manager in which no two cards hold the same token object keeps
    the cards apart.  From every such state, which a new manager is in and
    a manager is in after [restore] exactly when the restored map holds no
    object twice, every sequence of [addToken], [removeToken],
    [setTokenCount], [clearTokens] and [clearAllTokens] leads to such a
    state again, and a further [addToken], [removeToken], [setTokenCount]
    or [clearTokens] on one card leaves the tokens on every other card, and
    so their counts and [hasTokens], as they were.  ([restore] of a map in
    which two cards hold one object leaves the condition, and the cards
    are then coupled, see [restore_shared_object_couples_cards].) *)
Theorem other_cards_untouched (m0 : TokenManager) (h0 : Heap) (ops : list Op)
    (op : Op) (cardId other : string) :
  separated m0 h0 →
  opCard op = Some cardId →
  other ≠ cardId →
  let s := run ops (m0, h0) in
  separated s.1 s.2
  ∧ getTokensOnCard other (step s op).1 (step s op).2
    = getTokensOnCard other s.1 s.2
  ∧ (∀ tokenId, getTokenCount other tokenId (step s op).1 (step s op).2
                = getTokenCount other tokenId s.1 s.2)
  ∧ hasTokens other (step s op).1 (step s op).2 = hasTokens other s.1 s.2.
Proof.
  intros Hsep0 Hop Hne s.
  pose proof (separated_run (m0, h0) ops Hsep0) as Hsep. fold s in Hsep.
  destruct s as [m h]. cbn [fst snd] in *.
  pose proof (step_other_card m h op cardId other Hsep Hop Hne) as H.
  split; [exact Hsep |].
  split; [exact H |].
  assert (Hdom : tokens (step (m, h) op).1 !! other = tokens m !! other).
  { destruct op as [c t n | c t n | c t n | c |]; cbn in Hop;
      try discriminate Hop; injection Hop as ->; cbn [step].
    - unfold addToken. destruct (tokens m !! cardId); [done |]. cbn.
      by rewrite lookup_insert_ne by congruence.
    - unfold removeToken. destruct (tokens m !! cardId); [| done]. cbn.
      case_decide; [| done]. cbn. by rewrite lookup_delete_ne by congruence.
    - unfold setTokenCount. case_decide.
      + unfold removeToken. destruct (tokens m !! cardId); [| done]. cbn.
        case_decide; [| done]. cbn. by rewrite lookup_delete_ne by congruence.
      + destruct (tokens m !! cardId); [done |]. cbn.
        by rewrite lookup_insert_ne by congruence.
    - cbn. by rewrite lookup_delete_ne by congruence. }
  unfold getTokensOnCard, getTokenCount, hasTokens in *. rewrite Hdom in *.
  destruct (tokens m !! other) as [l |]; [| done].
  rewrite H. done.
Qed.

(** Tokens on "c2" stay while "c1" gets and loses tokens, in a new manager
    and in a second manager that restored the serialized map of the
    first. *)
Lemma other_cards_untouched_witness :
  let ops := [OpAddToken "c1" damage_counter 2; OpAddToken "c2" boost_counter 3] in
  let s := run ops (constructor DEFAULT_CONFIG, emptyHeap) in
  let r := run [OpAddToken "c1" status_stun 1]
             (restore (serialize s.1) (constructor {| stackLimit := 10 |}), s.2) in
  getTokensOnCard "c2" (step s (OpRemoveToken "c1" damage_counter 2)).1
    (step s (OpRemoveToken "c1" damage_counter 2)).2
  = getTokensOnCard "c2" s.1 s.2
  ∧ getTokensOnCard "c2" (step r (OpRemoveToken "c1" damage_counter 2)).1
      (step r (OpRemoveToken "c1" damage_counter 2)).2
    = getTokensOnCard "c2" r.1 r.2.
Proof.
  intros ops s r.
  assert (Hne : "c2" ≠ "c1") by discriminate.
  pose proof (other_cards_untouched (constructor DEFAULT_CONFIG) emptyHeap ops
                (OpRemoveToken "c1" damage_counter 2) "c1" "c2"
                (separated_constructor DEFAULT_CONFIG) eq_refl Hne) as Hs.
  destruct Hs as (Hsep & Hs & _).
  split; [exact Hs |].
  exact (proj1 (proj2
    (other_cards_untouched
       (restore (serialize s.1) (constructor {| stackLimit := 10 |})) s.2
       [OpAddToken "c1" status_stun 1]
       (OpRemoveToken "c1" damage_counter 2) "c1" "c2"
       (separated_restore_serialize s.1 _ s.2 Hsep) eq_refl Hne))).
Defined.

(** X23: [clearTokens] removes the card and nothing else: afterwards the
    card has no tokens, every count on it is 0 and it is not listed by
    [getCardsWithTokens], while the tokens on every other card are as
    before; after [clearAllTokens] no card is listed and the total token
    count is 0. *)
Theorem clearTokens_clears (m : TokenManager) (h : Heap) (cardId : string) :
  hasTokens cardId (clearTokens cardId m) h = false
  ∧ getTokensOnCard cardId (clearTokens cardId m) h = ∅
  ∧ (∀ tokenId, getTokenCount cardId tokenId (clearTokens cardId m) h = 0)
  ∧ (cardId ∉ getCardsWithTokens (clearTokens cardId m))
  ∧ (∀ other, other ≠ cardId →
       getTokensOnCard other (clearTokens cardId m) h
       = getTokensOnCard other m h)
  ∧ (∀ other, other ≠ cardId →
       other ∈ getCardsWithTokens (clearTokens cardId m)
       ↔ other ∈ getCardsWithTokens m)
  ∧ getCardsWithTokens (clearAllTokens m) = []
  ∧ getTotalTokenCount (clearAllTokens m) h = 0.
Proof.
  assert (Hcards : ∀ (m' : TokenManager) c,
            c ∈ getCardsWithTokens m' ↔ is_Some (tokens m' !! c)).
  { intros m' c. unfold getCardsWithTokens. rewrite list_elem_of_fmap. split.
    - intros [[q v] [-> Hin]]. apply elem_of_map_to_list in Hin. by eexists.
    - intros [v Hv]. exists (c, v). split; [done |].
      by apply elem_of_map_to_list. }
  unfold hasTokens, getTokensOnCard, getTokenCount, clearTokens.
  cbn [tokens set_tokens]. rewrite lookup_delete_eq.
  split; [done |]. split; [done |]. split; [done |]. split.
  { rewrite Hcards. cbn. rewrite lookup_delete_eq. by intros [? ?]. }
  split. { intros other Hne. by rewrite lookup_delete_ne by congruence. }
  split. { intros other Hne. rewrite !Hcards. cbn.
           by rewrite lookup_delete_ne by congruence. }
  split.
  - unfold getCardsWithTokens, clearAllTokens. cbn.
    by rewrite map_to_list_empty.
  - unfold getTotalTokenCount, clearAllTokens. cbn. apply map_fold_empty.
Qed.

(** *** The total token count *)





(** Three counters added to a card and two of them taken off. *)
Lemma positive_adds_keep_cards_positive_witness :
  let ops := [OpAddToken "c1" shield_counter 3;
              OpRemoveToken "c1" shield_counter 2] in
  let s := run ops (constructor DEFAULT_CONFIG, emptyHeap) in
  cardHasPositive "c1" s.1 s.2.
Proof.
  intros ops s.
  assert (Hs : 1 ≤ stackLimit DEFAULT_CONFIG) by (cbn; lia).
  assert (Hops : Forall positiveAdd ops).
  { repeat (apply Forall_cons_2; [cbn; lia || exact I |]). apply Forall_nil_2. }
  apply (positive_adds_keep_cards_positive DEFAULT_CONFIG ops "c1" Hs Hops).
  vm_compute. by eexists.
Defined.

End TokenFurther.

(** ** Helper functions *)

Section HelpersFurther.
Import Helpers.

(** X24: [clamp] returns a value between [min] and [max] when [min] is
    not above [max], the value itself when that lies between them, and
    [max] when [min] is above [max]; it never returns more than [max],
    and clamping a clamped value changes nothing.  The life manager's
    [clampLife] with a [maxLife] is this function. *)
Theorem clamp_bounds (value min max : Z) :
  (min ≤ max → min ≤ clamp value min max ≤ max)
  ∧ (min ≤ value ≤ max → clamp value min max = value)
  ∧ (max < min → clamp value min max = max)
  ∧ clamp value min max ≤ max
  ∧ clamp (clamp value min max) min max = clamp value min max
  ∧ (∀ cfg, Life.maxLife cfg = Some max → Life.minLife cfg = min →
       Life.clampLife cfg value = clamp value min max).
Proof.
  unfold clamp. repeat split; try lia.
  intros cfg Hmax Hmin. unfold Life.clampLife. by rewrite Hmax, Hmin.
Qed.

Context {A : Type} `{EqDecision A}.

Lemma swapItems_Permutation (result : list A) (i j : nat) :
  swapItems result i j ≡ₚ result.
Proof.
  unfold swapItems.
  destruct (result !! i) as [x |] eqn:Hi; [| done].
  destruct (result !! j) as [y |] eqn:Hj; [| done].
  by apply Permutation_insert_swap.
Qed.

Lemma shuffleFrom_Permutation (i : nat) (random : nat → nat) (result : list A) :
  shuffleFrom i random result ≡ₚ result.
Proof.
  revert result. induction i as [| i IH]; intros result; [done |].
  cbn [shuffleFrom]. rewrite IH. apply swapItems_Permutation.
Qed.

(** X25: whatever indices the random source draws, [shuffle] returns a
    rearrangement of its argument: the same elements, each as often as
    before, so the same length; an empty or one-element array comes back
    as it is. *)
Theorem shuffle_Permutation (random : nat → nat) (array : list A) :
  shuffle random array ≡ₚ array
  ∧ length (shuffle random array) = length array
  ∧ (∀ x, x ∈ shuffle random array ↔ x ∈ array)
  ∧ ((length array ≤ 1)%nat → shuffle random array = array).
Proof.
  pose proof (shuffleFrom_Permutation (length array - 1) random array) as Hp.
  split; [exact Hp |]. split; [by rewrite Hp |]. split.
  - intros x. by rewrite Hp.
  - intros Hlen. unfold shuffle.
    replace (length array - 1)%nat with 0%nat by lia. done.
Qed.

Lemma setAdd_spec (x : A) (s : list A) :
  NoDup s →
  NoDup (setAdd x s) ∧ ∀ y, y ∈ setAdd x s ↔ y ∈ s ∨ y = x.
Proof.
  intros Hs. unfold setAdd. case_decide as Hx.
  - split; [done |]. intros y. split; [by left |].
    by intros [? | ->].
  - split.
    + apply NoDup_app. split; [done |]. split; [| apply NoDup_singleton].
      intros y Hy ->%list_elem_of_singleton. by apply Hx.
    + intros y. rewrite elem_of_app, list_elem_of_singleton. done.
Qed.

Lemma unique_from (s array : list A) :
  NoDup s →
  NoDup (foldl (λ s x, setAdd x s) s array)
  ∧ (∀ y, y ∈ foldl (λ s x, setAdd x s) s array ↔ y ∈ s ∨ y ∈ array)
  ∧ (NoDup array → (∀ y, y ∈ s → y ∉ array) →
     foldl (λ s x, setAdd x s) s array = s ++ array).
Proof.
  revert s. induction array as [| x array IH]; intros s Hs.
  - cbn. split; [done |]. split.
    + intros y. split; [by left |]. intros [? | Hn]; [done |].
      by apply not_elem_of_nil in Hn.
    + intros _ _. by rewrite app_nil_r.
  - cbn [foldl]. destruct (setAdd_spec x s Hs) as [Hs' Hin'].
    destruct (IH _ Hs') as (Hnd & Hin & Heq).
    split; [exact Hnd |]. split.
    + intros y. rewrite Hin, Hin', elem_of_cons. tauto.
    + intros Hnd' Hdis. apply NoDup_cons in Hnd' as [Hx Hnd'].
      assert (Hxs : x ∉ s).
      { intros Hxs. apply (Hdis x Hxs). apply list_elem_of_here. }
      rewrite Heq; [| done |].
      * unfold setAdd. rewrite decide_False by done.
        by rewrite <- app_assoc.
      * intros y [Hy | ->]%Hin'; [| done].
        intros Hy'. apply (Hdis y Hy). by apply list_elem_of_further.
Qed.

(** X26: [unique] returns an array without duplicates that holds exactly
    the elements of its argument; an array without duplicates comes back
    as it is, so applying [unique] twice is applying it once. *)
Theorem unique_NoDup (array : list A) :
  NoDup (unique array)
  ∧ (∀ x, x ∈ unique array ↔ x ∈ array)
  ∧ (NoDup array → unique array = array)
  ∧ unique (unique array) = unique array.
Proof.
  destruct (unique_from [] array (NoDup_nil_2)) as (Hnd & Hin & Heq).
  assert (Hid : ∀ l : list A, NoDup l → unique l = l).
  { intros l Hl.
    destruct (unique_from [] l (NoDup_nil_2)) as (_ & _ & Heq').
    apply Heq'; [done |]. intros y Hy. by apply not_elem_of_nil in Hy. }
  split; [exact Hnd |]. split; [| split; [apply Hid | by apply Hid]].
  intros x. unfold unique. rewrite Hin. split; [| by right].
  intros [Hn | ?]; [by apply not_elem_of_nil in Hn | done].
Qed.

End HelpersFurther.

(** ** The game interface *)

Section ApiFurther.
Import Api.

Lemma changeLife_players (m : Life.LifeManager) (playerId : string) (delta : Z)
    (source : option string) (p : string) :
  Life.hasPlayer p (Life.changeLife playerId delta source m).1
  = Life.hasPlayer p m.
Proof.
  destruct (Life.lifeTotals m !! playerId) as [previous |] eqn:Hl.
  - rewrite (changeLife_Some _ _ _ delta source Hl).
    apply setLife_others.
  - by rewrite changeLife_None.
Qed.

Lemma call_lifeManager_players (w : World) (c : Call) (p : string) :
  Life.hasPlayer p (lifeManager (call w c)) = Life.hasPlayer p (lifeManager w).
Proof.
  destruct c as [q a | q d | ph | | | cd t n | cd t n | cd | n |];
    cbn [call]; try done.
  - unfold setLife.
    pose proof (proj1 (proj2 (setLife_others (lifeManager w) (Player_id q)
                                a None)) p) as H.
    by destruct (Life.setLife _ _ _ (lifeManager w)) as [r [ev | e]].
  - unfold changeLife.
    pose proof (changeLife_players (lifeManager w) (Player_id q) d None p) as H.
    by destruct (Life.changeLife _ _ _ (lifeManager w)) as [r [ev | e]].
  - unfold setPhase. by destruct (Turn.setPhase ph (turnManager w)).
  - unfold addToken. by destruct (Token.addToken _ _ _ _ _) as [[? ?] ?].
  - unfold removeToken. by destruct (Token.removeToken _ _ _ _ _) as [[? ?] ?].
Qed.

(** X27: the interface never fails on its two players.  Right after
    [initializeAlphaClash] both 'self' and 'opponent' have the configured
    starting life (20 when none is given), whatever the process-wide life
    manager held before; and after every sequence of interface calls
    [getLife], [setLife] and [changeLife] on either player return without
    throwing.  [setTurn] changes nothing: [getTurn] answers as before. *)
Theorem api_life_calls_never_throw (cfg : AlphaClashConfig)
    (defaultLifeManager : option Life.LifeManager)
    (defaultTokenManager : option Token.TokenManager) (h : Token.Heap)
    (cs : list Call) (player : Player) (amount : Z) :
  let w0 := initializeAlphaClash cfg defaultLifeManager defaultTokenManager h in
  let w := calls cs w0 in
  getLife player w0 = Ok (default 20 (startingLife cfg))
  ∧ (∃ life, getLife player w = Ok life)
  ∧ (setLife player amount w).2 = Ok tt
  ∧ (changeLife player amount w).2 = Ok tt
  ∧ getTurn (setTurn amount w) = getTurn w.
Proof.
  intros w0 w.
  assert (H0 : ∀ q, Life.lifeTotals (lifeManager w0) !! Player_id q
                    = Some (default 20 (startingLife cfg))).
  { intros q. subst w0. unfold initializeAlphaClash. cbn.
    destruct q; cbn.
    - rewrite lookup_insert_ne by discriminate. apply lookup_insert_eq.
    - apply lookup_insert_eq. }
  assert (Hw : ∀ q, Life.hasPlayer (Player_id q) (lifeManager w) = true).
  { intros q. subst w. unfold calls.
    assert (Hh0 : Life.hasPlayer (Player_id q) (lifeManager w0) = true).
    { unfold Life.hasPlayer. rewrite H0. apply bool_decide_eq_true_2.
      by eexists. }
    revert Hh0. generalize w0.
    induction cs as [| c cs IH]; intros w1 Hh; [done |].
    cbn [foldl]. apply IH. by rewrite call_lifeManager_players. }
  specialize (Hw player). unfold Life.hasPlayer in Hw.
  apply bool_decide_eq_true_1 in Hw as [life Hl].
  split. { unfold getLife. by rewrite (getLife_Some _ _ _ (H0 player)). }
  split. { exists life. unfold getLife. by rewrite (getLife_Some _ _ _ Hl). }
  split. { unfold setLife. by rewrite (setLife_Some _ _ _ amount None Hl). }
  split; [| done].
  unfold changeLife.
  by rewrite (changeLife_Some _ _ _ amount None Hl),
             (setLife_Some _ _ _ (life + amount) None Hl).
Qed.

End ApiFurther.
